(** * Confusion-matrix accumulator: a shallow embedding of [confusion.py]

    The development follows the class [Confusion] of [confusion.py]:
    the constructor, [reset], [incremental_update] and [finish], and
    the guard through which [plot] and [print_confusion_matrix] come to
    the scores.  What these two draw and print from the fields computed
    by [finish] is not modelled.

    Conventions.
    - Python integers are [Z]; NumPy's fixed-width integers are [Z]
      with the two's-complement wrap-around written out ([to_int32],
      [to_int64]).
    - NumPy's float64 results are modelled by exact rationals extended
      with [nan] and the two infinities ([float64] below): which value
      is [nan] and which is finite is exact, rounding is not modelled.
    - A method of the class is a computation in the monad [M], which
      threads the object ([self]) and may raise a Python exception; the
      object that comes out with an exception is the object as it was
      when the exception was raised. *)

From Stdlib Require Import ZArith QArith Qabs Qfield Bool String DecimalString DecimalNat Sorted Lia.
From stdpp Require Import base list.

Local Open Scope Z_scope.

(** ** NumPy's fixed-width integers *)

Module Int.

(** The value a [w]-bit two's-complement integer holds after a C cast
    of [x] (what [astype] and integer arithmetic of that width do). *)
Definition wrap (w : Z) (x : Z) : Z :=
  (x + 2 ^ (w - 1)) mod 2 ^ w - 2 ^ (w - 1).

Definition to_int32 : Z → Z := wrap 32.
Definition to_int64 : Z → Z := wrap 64.

Definition in_range (w : Z) (x : Z) : Prop :=
  - 2 ^ (w - 1) ≤ x < 2 ^ (w - 1).

Definition is_int32 : Z → Prop := in_range 32.
Definition is_int64 : Z → Prop := in_range 64.

End Int.

Import Int.

(** ** Floating-point results, in exact arithmetic *)

Inductive float64 : Type :=
| Fin (q : Q)
| PInf
| NInf
| NaN.

(** Equality of results: finite values are compared as rationals. *)
Definition feq (x y : float64) : Prop :=
  match x, y with
  | Fin a, Fin b => (a == b)%Q
  | PInf, PInf | NInf, NInf | NaN, NaN => True
  | _, _ => False
  end.

Infix "=f" := feq (at level 70, no associativity).

Definition is_nan (x : float64) : bool :=
  match x with NaN => true | _ => false end.

Definition of_int (n : Z) : float64 := Fin (inject_Z n).

(** Sign of a finite rational as NumPy sees it when it multiplies or
    divides an infinity. *)
Definition Qsgn (q : Q) : Z := Z.sgn (Qnum q).

Definition inf_of_sign (s : Z) : float64 :=
  if s =? 0 then NaN else if 0 <? s then PInf else NInf.

Definition fsgn (x : float64) : Z :=
  match x with Fin q => Qsgn q | PInf => 1 | NInf => -1 | NaN => 0 end.

Definition fadd (x y : float64) : float64 :=
  match x, y with
  | NaN, _ | _, NaN => NaN
  | Fin a, Fin b => Fin (a + b)
  | PInf, NInf | NInf, PInf => NaN
  | PInf, _ | _, PInf => PInf
  | NInf, _ | _, NInf => NInf
  end.

Definition fmul (x y : float64) : float64 :=
  match x, y with
  | NaN, _ | _, NaN => NaN
  | Fin a, Fin b => Fin (a * b)
  | _, _ => inf_of_sign (fsgn x * fsgn y)
  end.

(** IEEE division: [0/0] and [inf/inf] are [nan], [x/0] is an infinity
    of the sign of [x] (the divisors here are never a negative zero). *)
Definition fdiv (x y : float64) : float64 :=
  match x, y with
  | NaN, _ | _, NaN => NaN
  | Fin a, Fin b =>
      if Qeq_bool b 0 then inf_of_sign (Qsgn a) else Fin (a / b)
  | Fin _, _ => Fin 0
  | _, Fin b => inf_of_sign (fsgn x * (if Qeq_bool b 0 then 1 else Qsgn b))
  | _, _ => NaN
  end.

(** [a / b] on integers, as NumPy's true division does it. *)
Definition true_divide (a b : Z) : float64 := fdiv (of_int a) (of_int b).

Definition fsum (l : list float64) : float64 := foldr fadd (Fin 0) l.

(** [np.nanmean]: the [nan]s are replaced by zero, the sum is divided by
    the number of values that were not [nan]. *)
Definition nanmean (l : list float64) : float64 :=
  let arr := map (λ x, if is_nan x then Fin 0 else x) l in
  let cnt := length (List.filter (λ x, negb (is_nan x)) l) in
  fdiv (fsum arr) (of_int (Z.of_nat cnt)).

(** ** Arrays of labels *)

Record ndarray : Type := mk_ndarray {
  shape : list nat;
  data : list Z;          (* the elements in row-major order *)
}.

Definition size_of (sh : list nat) : nat := foldr Nat.mul 1%nat sh.

(** An array holds as many elements as its shape says. *)
Definition ndarray_ok (a : ndarray) : Prop :=
  length (data a) = size_of (shape a).

Definition array1d (l : list Z) : ndarray :=
  {| shape := [length l]; data := l |}.

Definition flatten (a : ndarray) : list Z := data a.

Definition shape_eqb (a b : ndarray) : bool :=
  bool_decide (shape a = shape b).

(** [x in a]. *)
Definition contains (x : Z) (a : ndarray) : bool :=
  existsb (Z.eqb x) (data a).

(** [np.max(a)]; there is none for an array without elements. *)
Definition amax (a : ndarray) : option Z :=
  match data a with
  | [] => None
  | x :: l => Some (foldl Z.max x l)
  end.

Definition zsum (l : list Z) : Z := foldr Z.add 0 l.

(** [l[mask]] for a boolean [mask]. *)
Fixpoint compress {A} (mask : list bool) (l : list A) : list A :=
  match mask, l with
  | b :: mask, x :: l => if b then x :: compress mask l else compress mask l
  | _, _ => []
  end.

(** [np.unique(l, return_counts=True)]: the distinct values in
    increasing order, each with its number of occurrences. *)
Fixpoint insert_count (x : Z) (acc : list (Z * Z)) : list (Z * Z) :=
  match acc with
  | [] => [(x, 1)]
  | (y, c) :: acc' =>
      if x <? y then (x, 1) :: acc
      else if x =? y then (y, c + 1) :: acc'
      else (y, c) :: insert_count x acc'
  end.

Definition unique_counts (l : list Z) : list Z * list Z :=
  let uc := foldr insert_count [] l in (map fst uc, map snd uc).

(** ** The flat view of an array: [a.flat[idx]] *)

(** A negative index counts from the end; an index that is still out of
    bounds after that is an [IndexError]. *)
Definition adjust_index (size : nat) (i : Z) : option nat :=
  let i' := if i <? 0 then i + Z.of_nat size else i in
  if (0 <=? i') && (i' <? Z.of_nat size) then Some (Z.to_nat i') else None.

Fixpoint flat_getitem (a : list Z) (idx : list Z) : option (list Z) :=
  match idx with
  | [] => Some []
  | i :: idx =>
      match adjust_index (length a) i with
      | None => None
      | Some k =>
          match a !! k, flat_getitem a idx with
          | Some v, Some vs => Some (v :: vs)
          | _, _ => None
          end
      end
  end.

(** The assignments are made one after the other, so that for two
    indices that name the same cell the later one stays. *)
Fixpoint flat_setitem (a : list Z) (idx vals : list Z) : option (list Z) :=
  match idx, vals with
  | i :: idx, v :: vals =>
      match adjust_index (length a) i with
      | None => None
      | Some k => flat_setitem (<[k := v]> a) idx vals
      end
  | _, _ => Some a
  end.

(** ** Exceptions *)

Inductive exn_class : Type := ValueError | IndexError | Exception.

(** The places where a method stops with an exception. *)
Inductive error : Type :=
| NothingSpecified        (* __init__: neither label_names nor label_count *)
| VoidLabelNotNegative    (* __init__: void_label >= 0 *)
| ShapeMismatch           (* 'Groundtruth and prediction shape missmatch' *)
| VoidPrediction          (* 'Void labels found in the predictions. ...' *)
| GtExceedsClassCount     (* 'Labels in the groundturh exceed the class count.' *)
| PredExceedsClassCount   (* 'Labels in the prediction exceed the class count.' *)
| UpdateAfterFinish       (* 'You specified not to allow updates after computing scores.' *)
| MaxOfEmpty              (* np.max of an array without elements *)
| FlatIndexOutOfBounds.   (* confusion.flat[pairs] with an index out of bounds *)

Definition class_of (e : error) : exn_class :=
  match e with
  | UpdateAfterFinish => Exception
  | FlatIndexOutOfBounds => IndexError
  | _ => ValueError
  end.

(** [isinstance(e, c)]: every exception class here derives from
    [Exception]. *)
Definition isinstance (e : error) (c : exn_class) : Prop :=
  c = Exception ∨ class_of e = c.

(** ** The object *)

Record Confusion : Type := mk_Confusion {
  label_names : list string;
  void_label : Z;
  class_count : nat;
  confusion : list Z;       (* class_count x class_count, row-major *)
  confusion_normalized_row : option (list (list float64));
  confusion_normalized_col : option (list (list float64));
  global_score : float64;
  avg_score : float64;
  avg_iou_score : float64;
  gt_sum_per_class : option (list Z);
  sum_per_class : option (list Z);
  finished_computation : bool;
}.

(** ** Methods as computations on the object *)

Inductive result (A : Type) : Type :=
| Ok (a : A)
| Raise (e : error).
Arguments Ok {A} a.
Arguments Raise {A} e.

Definition M (A : Type) : Type := Confusion → result A * Confusion.

Global Instance M_ret : MRet M := λ A a self, (Ok a, self).

Global Instance M_bind : MBind M := λ A B k m self,
  match m self with
  | (Ok a, self') => k a self'
  | (Raise e, self') => (Raise e, self')
  end.

Definition raise {A} (e : error) : M A := λ self, (Raise e, self).
Definition get : M Confusion := λ self, (Ok self, self).
Definition put (s : Confusion) : M unit := λ _, (Ok tt, s).

(** [if c: raise e]. *)
Definition raise_if (c : bool) (e : error) : M unit :=
  if c then raise e else mret tt.

(** A NumPy call that fails raises its exception. *)
Definition otherwise {A} (o : option A) (e : error) : M A :=
  match o with Some a => mret a | None => raise e end.

(** ** [__init__] and [reset] *)

Definition str (i : nat) : string := NilEmpty.string_of_uint (Nat.to_uint i).

(** [reset] leaves [gt_sum_per_class] and [sum_per_class] as they are:
    the source does not assign them. *)
Definition reset : M unit :=
  self ← get;
  put {| label_names := label_names self;
         void_label := void_label self;
         class_count := class_count self;
         confusion := replicate (class_count self * class_count self) 0;
         confusion_normalized_row := None;
         confusion_normalized_col := None;
         global_score := of_int 0;
         avg_score := of_int 0;
         avg_iou_score := of_int 0;
         gt_sum_per_class := gt_sum_per_class self;
         sum_per_class := sum_per_class self;
         finished_computation := false |}.

(** The names are the ones given, or the numbers below [label_count];
    then the void label is checked; then the object is [reset]. *)
Definition __init__ (names : option (list string)) (void : Z)
    (label_count : option nat) : result Confusion :=
  match
    match names, label_count with
    | Some l, _ => Ok l
    | None, None => Raise NothingSpecified
    | None, Some n => Ok (map str (seq 0 n))
    end
  with
  | Raise e => Raise e
  | Ok l =>
      if 0 <=? void then Raise VoidLabelNotNegative
      else
        let self :=
          {| label_names := l;
             void_label := void;
             class_count := length l;
             confusion := [];
             confusion_normalized_row := None;
             confusion_normalized_col := None;
             global_score := of_int 0;
             avg_score := of_int 0;
             avg_iou_score := of_int 0;
             gt_sum_per_class := None;
             sum_per_class := None;
             finished_computation := false |} in
        Ok (snd (reset self))
  end.

(** ** [incremental_update] *)

(** [self.confusion.flat[pairs] += pair_counts]: the cells are read,
    the counts are added in int64, and the sums are written back. *)
Definition flat_iadd (pairs pair_counts : list Z) : M unit :=
  self ← get;
  old ← otherwise (flat_getitem (confusion self) pairs) FlatIndexOutOfBounds;
  let new := zip_with (λ v c, to_int64 (v + c)) old pair_counts in
  a ← otherwise (flat_setitem (confusion self) pairs new) FlatIndexOutOfBounds;
  put {| label_names := label_names self;
         void_label := void_label self;
         class_count := class_count self;
         confusion := a;
         confusion_normalized_row := confusion_normalized_row self;
         confusion_normalized_col := confusion_normalized_col self;
         global_score := global_score self;
         avg_score := avg_score self;
         avg_iou_score := avg_iou_score self;
         gt_sum_per_class := gt_sum_per_class self;
         sum_per_class := sum_per_class self;
         finished_computation := finished_computation self |}.

Definition set_finished_computation (b : bool) : M unit :=
  self ← get;
  put {| label_names := label_names self;
         void_label := void_label self;
         class_count := class_count self;
         confusion := confusion self;
         confusion_normalized_row := confusion_normalized_row self;
         confusion_normalized_col := confusion_normalized_col self;
         global_score := global_score self;
         avg_score := avg_score self;
         avg_iou_score := avg_iou_score self;
         gt_sum_per_class := gt_sum_per_class self;
         sum_per_class := sum_per_class self;
         finished_computation := b |}.

(** The mask of the elements that are counted. *)
Definition non_void_mask (void : Z) (allow_void_prediction : bool)
    (gt_flat pred_flat : list Z) : list bool :=
  let non_void := map (λ g, negb (g =? void)) gt_flat in
  if allow_void_prediction
  then zip_with andb non_void (map (λ p, negb (p =? void)) pred_flat)
  else non_void.

(** The flat index of each counted element, computed in int32. *)
Definition pairs_of (void : Z) (class_count : nat) (allow_void_prediction : bool)
    (gt pred : ndarray) : list Z :=
  let gt_flat := map to_int32 (flatten gt) in
  let pred_flat := map to_int32 (flatten pred) in
  let non_void := non_void_mask void allow_void_prediction gt_flat pred_flat in
  let gt_flat := compress non_void gt_flat in
  let pred_flat := compress non_void pred_flat in
  zip_with (λ g p, to_int32 (to_int32 (g * Z.of_nat class_count) + p))
    gt_flat pred_flat.

(** The defaults of the two flags. *)
Definition allow_void_prediction_default : bool := false.
Definition update_finished_default : bool := true.

(** The five checks, in the order of the source, and then the
    accumulation; the finished flag is cleared last. *)
Definition incremental_update (gt pred : ndarray)
    (allow_void_prediction update_finished : bool) : M unit :=
  raise_if (negb (shape_eqb gt pred)) ShapeMismatch;;
  self ← get;
  raise_if (negb allow_void_prediction && contains (void_label self) pred)
    VoidPrediction;;
  max_gt ← otherwise (amax gt) MaxOfEmpty;
  raise_if (Z.of_nat (class_count self) <=? max_gt) GtExceedsClassCount;;
  max_pred ← otherwise (amax pred) MaxOfEmpty;
  raise_if (Z.of_nat (class_count self) <=? max_pred) PredExceedsClassCount;;
  raise_if (finished_computation self && negb update_finished)
    UpdateAfterFinish;;
  let pairs :=
    pairs_of (void_label self) (class_count self) allow_void_prediction
      gt pred in
  let '(pairs, pair_counts) := unique_counts pairs in
  flat_iadd pairs pair_counts;;
  set_finished_computation false.

(** The part of [incremental_update] that follows the checks (the
    accumulation), on its own. *)
Definition accumulate (gt pred : ndarray) (allow_void_prediction : bool)
    : M unit :=
  self ← get;
  let pairs :=
    pairs_of (void_label self) (class_count self) allow_void_prediction
      gt pred in
  let '(pairs, pair_counts) := unique_counts pairs in
  flat_iadd pairs pair_counts;;
  set_finished_computation false.

(** ** [finish] *)

(** Views of the [class_count x class_count] matrix stored row-major. *)
Definition row (n : nat) (a : list Z) (i : nat) : list Z :=
  take n (drop (i * n) a).

Definition cell (n : nat) (a : list Z) (i j : nat) : Z :=
  default 0 (a !! (i * n + j)%nat).

Definition col (n : nat) (a : list Z) (j : nat) : list Z :=
  map (λ i, cell n a i j) (seq 0 n).

(** [np.diag(a)]. *)
Definition diag (n : nat) (a : list Z) : list Z :=
  map (λ i, cell n a i i) (seq 0 n).

Definition rows (n : nat) (a : list Z) : list (list Z) :=
  map (row n a) (seq 0 n).

(** [np.sum] of int64 values is an int64. *)
Definition np_sum (l : list Z) : Z := to_int64 (zsum l).

(** [astype(np.float32)]; the rounding to single precision is not
    modelled. *)
Definition astype_float32 (n : Z) : float64 := of_int n.

Definition finish : M unit :=
  self ← get;
  let n := class_count self in
  let a := confusion self in
  let total := np_sum a in
  let gt_sum := map (λ i, np_sum (row n a i)) (seq 0 n) in
  let sum_pc := map (λ j, np_sum (col n a j)) (seq 0 n) in
  let dg := diag n a in
  let union :=
    zip_with (λ x d, to_int64 (x - d))
      (zip_with (λ g s, to_int64 (g + s)) gt_sum sum_pc) dg in
  put {| label_names := label_names self;
         void_label := void_label self;
         class_count := n;
         confusion := a;
         confusion_normalized_row :=
           Some (zip_with (λ r g, map (λ x, fdiv (of_int x) (astype_float32 g)) r)
                   (rows n a) gt_sum);
         confusion_normalized_col :=
           Some (map (λ r, zip_with (λ x s, fdiv (of_int x) (astype_float32 s))
                             r sum_pc)
                   (rows n a));
         global_score := true_divide (np_sum dg) total;
         avg_score := nanmean (zip_with true_divide dg gt_sum);
         avg_iou_score := nanmean (zip_with true_divide dg union);
         gt_sum_per_class := Some gt_sum;
         sum_per_class := Some sum_pc;
         finished_computation := true |}.

(** Running a method: the outcome and the object afterwards. *)
Definition outcome {A} (r : result A * Confusion) : result A := fst r.
Definition after {A} (r : result A * Confusion) : Confusion := snd r.

(** ** Vocabulary of the statements *)

(** The matrix of an object is a [class_count x class_count] array of
    int64 cells. *)
Definition matrix_ok (s : Confusion) : Prop :=
  length (confusion s) = (class_count s * class_count s)%nat ∧
  Forall is_int64 (confusion s).

(** The labels of the object fit the int32 the labels are cast to: the
    void label, and every flat index of the matrix. *)
Definition labels_ok (s : Confusion) : Prop :=
  void_label s < 0 ∧ is_int32 (void_label s) ∧
  Z.of_nat (class_count s * class_count s) ≤ 2 ^ 31.

(** The cells are counts, and their total fits an int64. *)
Definition counts_ok (s : Confusion) : Prop :=
  length (confusion s) = (class_count s * class_count s)%nat ∧
  Forall (λ c, 0 ≤ c) (confusion s) ∧
  zsum (confusion s) < 2 ^ 63.

(** A label that names a class, or the void label where it may stand. *)
Definition valid_label (s : Confusion) (void_ok : bool) (x : Z) : Prop :=
  0 ≤ x < Z.of_nat (class_count s) ∨ (void_ok = true ∧ x = void_label s).

(** A batch of valid labels: ground truth and prediction of one shape;
    void may stand in the ground truth, and in the prediction when void
    predictions are allowed. *)
Definition valid_batch (s : Confusion) (allow_void_prediction : bool)
    (gt pred : ndarray) : Prop :=
  shape gt = shape pred ∧ ndarray_ok gt ∧ ndarray_ok pred ∧
  Forall (valid_label s true) (data gt) ∧
  Forall (valid_label s allow_void_prediction) (data pred).

(** The preconditions of [incremental_update], each with the exception
    the source raises for it. *)
Inductive violates (s : Confusion) (gt pred : ndarray)
    (allow_void_prediction update_finished : bool) : error → Prop :=
| violates_shape :
    shape gt ≠ shape pred →
    violates s gt pred allow_void_prediction update_finished ShapeMismatch
| violates_void :
    allow_void_prediction = false → void_label s ∈ data pred →
    violates s gt pred allow_void_prediction update_finished VoidPrediction
| violates_gt x :
    x ∈ data gt → Z.of_nat (class_count s) ≤ x →
    violates s gt pred allow_void_prediction update_finished
      GtExceedsClassCount
| violates_pred x :
    x ∈ data pred → Z.of_nat (class_count s) ≤ x →
    violates s gt pred allow_void_prediction update_finished
      PredExceedsClassCount
| violates_stale :
    finished_computation s = true → update_finished = false →
    violates s gt pred allow_void_prediction update_finished
      UpdateAfterFinish.

(** The number of occurrences of the flat index [k] in [l]. *)
Definition occurrences (k : nat) (l : list Z) : Z :=
  Z.of_nat (length (List.filter (Z.eqb (Z.of_nat k)) l)).

(** The matrix after the cells named in [l] were counted. *)
Definition counted (a : list Z) (l : list Z) : list Z :=
  imap (λ k c, to_int64 (c + occurrences k l)) a.

(** Following the words of the specification: the mean of
    [num[i] / den[i]] over the classes [i] for which the quotient is
    defined (the denominator is not zero); undefined when there is no
    such class. *)
Definition defined_quotients (num den : list Z) : list Q :=
  omap (λ '(n, d), if d =? 0 then None else Some (inject_Z n / inject_Z d)%Q)
    (zip num den).

Definition Qsum (l : list Q) : Q := foldr Qplus 0%Q l.

Definition mean_of_defined (num den : list Z) : float64 :=
  match defined_quotients num den with
  | [] => NaN
  | qs => Fin (Qsum qs / inject_Z (Z.of_nat (length qs)))
  end.

(** The sums of the specification, in unbounded integers. *)
Definition gt_sums (s : Confusion) : list Z :=
  map (λ i, zsum (row (class_count s) (confusion s) i)) (seq 0 (class_count s)).

Definition pred_sums (s : Confusion) : list Z :=
  map (λ j, zsum (col (class_count s) (confusion s) j)) (seq 0 (class_count s)).

Definition unions (s : Confusion) : list Z :=
  zip_with Z.sub (zip_with Z.add (gt_sums s) (pred_sums s))
    (diag (class_count s) (confusion s)).

(** The mean over the classes with ground-truth support only, as the
    exclusion rule of [avg_score] would have it for the IoU. *)
Definition mean_over_gt_support (s : Confusion) : float64 :=
  let keep := map (λ g, negb (g =? 0)) (gt_sums s) in
  let qs :=
    zip_with (λ d u, (inject_Z d / inject_Z u)%Q)
      (compress keep (diag (class_count s) (confusion s)))
      (compress keep (unions s)) in
  match qs with
  | [] => NaN
  | _ => Fin (Qsum qs / inject_Z (Z.of_nat (length qs)))
  end.

(** The object after an update that wrote the matrix [a]. *)
Definition updated (s : Confusion) (a : list Z) : Confusion :=
  {| label_names := label_names s;
     void_label := void_label s;
     class_count := class_count s;
     confusion := a;
     confusion_normalized_row := confusion_normalized_row s;
     confusion_normalized_col := confusion_normalized_col s;
     global_score := global_score s;
     avg_score := avg_score s;
     avg_iou_score := avg_iou_score s;
     gt_sum_per_class := gt_sum_per_class s;
     sum_per_class := sum_per_class s;
     finished_computation := false |}.

(** The count that a list of (value, count) pairs holds for [v]. *)
Definition assoc_count (v : Z) (uc : list (Z * Z)) : Z :=
  zsum (map snd (List.filter (λ p, fst p =? v) uc)).

(** The number of occurrences of [v] in [l]. *)
Definition count_z (v : Z) (l : list Z) : Z :=
  Z.of_nat (length (List.filter (Z.eqb v) l)).

(** Whether the element with ground truth [g] and prediction [p] is
    counted, and the flat index of its cell. *)
Definition counted_element (void : Z) (allow_void_prediction : bool)
    (g p : Z) : bool :=
  negb (to_int32 g =? void)
  && (if allow_void_prediction then negb (to_int32 p =? void) else true).

Definition flat_index (class_count : nat) (g p : Z) : Z :=
  to_int32 (to_int32 (to_int32 g * Z.of_nat class_count) + to_int32 p).

(** ** Objects used as examples *)

Definition an_object (n : nat) (void : Z) : Confusion :=
  match __init__ None void (Some n) with
  | Ok s => s
  | Raise _ =>
      {| label_names := []; void_label := void; class_count := 0;
         confusion := []; confusion_normalized_row := None;
         confusion_normalized_col := None; global_score := of_int 0;
         avg_score := of_int 0; avg_iou_score := of_int 0;
         gt_sum_per_class := None; sum_per_class := None;
         finished_computation := false |}
  end.

(** A fresh object with two classes and void label [-1]. *)
Definition fresh2 : Confusion := an_object 2 (-1).

(** The same after one update and [finish]. *)
Definition finished2 : Confusion :=
  after (finish (after (incremental_update (array1d [0; 0; 1; 1])
                          (array1d [0; 1; 1; 1]) false true fresh2))).

(** An object whose matrix is [[1,1],[0,0]]: class 1 was predicted but
    never occurs in the ground truth. *)
Definition predicted_only : Confusion :=
  after (incremental_update (array1d [0; 0]) (array1d [0; 1]) false true fresh2).

(** ** The guard of [plot] and [print_confusion_matrix] *)

(** Both methods come to the scores through the same two lines,
    [if not self.finished_computation: self.finish()].  What they draw
    and print after that (the text that [format] makes of a float, the
    figure) is not modelled. *)
Definition finish_if_needed : M unit :=
  self ← get;
  if negb (finished_computation self) then finish else mret tt.

(** ** Sequences of calls *)

(** A call of a method on an object that was constructed.  [Display]
    stands for [plot] and [print_confusion_matrix], which touch the
    object through their guard only. *)
Inductive call : Type :=
| Reset
| Finish
| IncrementalUpdate (gt pred : ndarray)
    (allow_void_prediction update_finished : bool)
| Display.

Definition run (c : call) : M unit :=
  match c with
  | Reset => reset
  | Finish => finish
  | IncrementalUpdate gt pred allow_void_prediction update_finished =>
      incremental_update gt pred allow_void_prediction update_finished
  | Display => finish_if_needed
  end.

(** The object after the calls [cs], one after the other.  A call that
    raises leaves the object as it was when the exception was raised,
    and the caller goes on with it. *)
Definition run_all (cs : list call) (s : Confusion) : Confusion :=
  foldl (λ s c, after (run c s)) s cs.

(** The computed fields of an object are those of its matrix. *)
Definition up_to_date (s : Confusion) : Prop := after (finish s) = s.

(** ** Counting the elements of a batch *)

(** The number of elements with ground truth [i] and prediction [j]. *)
Definition count_pairs (i j : Z) (g p : list Z) : Z :=
  Z.of_nat (length (List.filter (λ xy, (fst xy =? i) && (snd xy =? j))
                      (zip g p))).

(** The number of elements that are not void: the ground truth is not
    the void label, and where void predictions are allowed neither is
    the prediction. *)
Definition count_non_void (void : Z) (allow_void_prediction : bool)
    (g p : list Z) : Z :=
  Z.of_nat (length (List.filter
                      (λ xy, negb (fst xy =? void)
                             && (if allow_void_prediction
                                 then negb (snd xy =? void) else true))
                      (zip g p))).

(** Column [j] of a matrix of floats given by its rows. *)
Definition fcol (m : list (list float64)) (j : nat) : list float64 :=
  omap (λ r, r !! j) m.

(** A score that is a fraction: finite, and between 0 and 1. *)
Definition is_fraction (x : float64) : Prop :=
  match x with Fin q => (0 <= q <= 1)%Q | _ => False end.

(** [x <= y] on finite results. *)
Definition fle (x y : float64) : Prop :=
  match x, y with Fin a, Fin b => (a <= b)%Q | _, _ => False end.

(** ** Objects in use *)

(** What holds of an object that was constructed, whatever was called
    on it since. *)
Definition object_ok (s : Confusion) : Prop :=
  void_label s < 0 ∧ class_count s = length (label_names s) ∧
  matrix_ok s ∧ (finished_computation s = true → up_to_date s).

(** The calls that compute scores. *)
Definition is_scoring (c : call) : bool :=
  match c with Finish | Display => true | _ => false end.

(** * Lemmas *)

(** ** Running [incremental_update] *)

Lemma incremental_update_run gt pred allow uf s :
  incremental_update gt pred allow uf s =
  if negb (shape_eqb gt pred) then (Raise ShapeMismatch, s)
  else if negb allow && contains (void_label s) pred
  then (Raise VoidPrediction, s)
  else
    match amax gt with
    | None => (Raise MaxOfEmpty, s)
    | Some max_gt =>
        if Z.of_nat (class_count s) <=? max_gt
        then (Raise GtExceedsClassCount, s)
        else
          match amax pred with
          | None => (Raise MaxOfEmpty, s)
          | Some max_pred =>
              if Z.of_nat (class_count s) <=? max_pred
              then (Raise PredExceedsClassCount, s)
              else if finished_computation s && negb uf
              then (Raise UpdateAfterFinish, s)
              else accumulate gt pred allow s
          end
    end.
Proof.
  unfold incremental_update, accumulate, mbind, M_bind, raise_if, otherwise,
    get, raise, mret, M_ret.
  destruct (negb (shape_eqb gt pred)); [done|].
  destruct (negb allow && contains (void_label s) pred); [done|].
  destruct (amax gt) as [mg|]; [|done].
  destruct (Z.of_nat (class_count s) <=? mg); [done|].
  destruct (amax pred) as [mp|]; [|done].
  destruct (Z.of_nat (class_count s) <=? mp); [done|].
  destruct (finished_computation s && negb uf); done.
Qed.

Lemma contains_spec x a : contains x a = true ↔ x ∈ data a.
Proof.
  unfold contains. rewrite existsb_exists. split.
  - intros (y & Hin & Heq). apply Z.eqb_eq in Heq. subst y.
    by apply list_elem_of_In.
  - intros Hin. exists x. split; [by apply list_elem_of_In | apply Z.eqb_refl].
Qed.

Lemma foldl_max_ge (l : list Z) x : x ≤ foldl Z.max x l.
Proof.
  revert x. induction l as [|y l IH]; intros x; simpl; [lia|].
  specialize (IH (Z.max x y)). lia.
Qed.

Lemma foldl_max_upper (l : list Z) x y : y ∈ l → y ≤ foldl Z.max x l.
Proof.
  revert x. induction l as [|z l IH]; intros x Hin; simpl.
  - by apply elem_of_nil in Hin.
  - apply elem_of_cons in Hin as [->|Hin]; [|by apply IH].
    pose proof (foldl_max_ge l (Z.max x z)). lia.
Qed.

Lemma foldl_max_elem (l : list Z) x : foldl Z.max x l = x ∨ foldl Z.max x l ∈ l.
Proof.
  revert x. induction l as [|z l IH]; intros x; simpl; [by left|].
  destruct (IH (Z.max x z)) as [Heq|Hin].
  - rewrite Heq. destruct (Z.max_spec x z) as [[_ ->]|[_ ->]].
    + right. by left.
    + by left.
  - right. by right.
Qed.

Lemma amax_upper a m x : amax a = Some m → x ∈ data a → x ≤ m.
Proof.
  unfold amax. destruct (data a) as [|y l]; [done|].
  intros [= <-] Hin. apply elem_of_cons in Hin as [->|Hin].
  - apply foldl_max_ge.
  - by apply foldl_max_upper.
Qed.

Lemma amax_elem a m : amax a = Some m → m ∈ data a.
Proof.
  unfold amax. destruct (data a) as [|y l]; [done|].
  intros [= <-]. destruct (foldl_max_elem l y) as [->|Hin].
  - by left.
  - by right.
Qed.

Lemma amax_None a : amax a = None ↔ data a = [].
Proof. unfold amax. by destruct (data a). Qed.

(** ** The example objects *)

Lemma fresh2_fields :
  class_count fresh2 = 2%nat ∧ void_label fresh2 = -1 ∧
  confusion fresh2 = [0; 0; 0; 0] ∧ finished_computation fresh2 = false.
Proof. vm_compute. done. Qed.

Lemma finished2_fields :
  class_count finished2 = 2%nat ∧ void_label finished2 = -1 ∧
  confusion finished2 = [1; 1; 0; 2] ∧ finished_computation finished2 = true.
Proof. vm_compute. done. Qed.

Lemma small_object_ok s (a : list Z) :
  class_count s = 2%nat → void_label s = -1 → confusion s = a →
  length a = 4%nat → Forall (λ c, 0 ≤ c < 1000) a →
  matrix_ok s ∧ labels_ok s ∧ counts_ok s.
Proof.
  intros Hcc Hv Ha Hlen Hall.
  unfold matrix_ok, labels_ok, counts_ok, is_int32, is_int64, in_range.
  rewrite Hcc, Hv, Ha.
  change (2 ^ (32 - 1)) with 2147483648.
  change (2 ^ (64 - 1)) with 9223372036854775808.
  change (2 ^ 31) with 2147483648. change (2 ^ 63) with 9223372036854775808.
  assert (zsum a < 4000).
  { destruct a as [|a0 [|a1 [|a2 [|a3 [|]]]]]; try discriminate.
    repeat match goal with
           | H : Forall _ (_ :: _) |- _ => apply Forall_cons in H as [? H]
           end.
    unfold zsum. simpl. lia. }
  repeat split; try done; try lia.
  - eapply Forall_impl; [exact Hall|]. simpl. intros; lia.
  - eapply Forall_impl; [exact Hall|]. simpl. intros; lia.
Qed.

Lemma fresh2_ok : matrix_ok fresh2 ∧ labels_ok fresh2.
Proof.
  destruct fresh2_fields as (Hcc & Hv & Ha & _).
  assert (Forall (λ c, 0 ≤ c < 1000) [0; 0; 0; 0]) as Hall
    by (repeat (constructor; [lia|]); constructor).
  destruct (small_object_ok fresh2 _ Hcc Hv Ha eq_refl Hall) as (? & ? & _).
  by split.
Qed.

Lemma finished2_counts_ok : counts_ok finished2.
Proof.
  destruct finished2_fields as (Hcc & Hv & Ha & _).
  assert (Forall (λ c, 0 ≤ c < 1000) [1; 1; 0; 2]) as Hall
    by (repeat (constructor; [lia|]); constructor).
  by destruct (small_object_ok finished2 _ Hcc Hv Ha eq_refl Hall)
    as (_ & _ & ?).
Qed.

Lemma valid_batch_two_classes s allow g p :
  class_count s = 2%nat → length g = length p →
  Forall (λ x, 0 ≤ x < 2) g → Forall (λ x, 0 ≤ x < 2) p →
  valid_batch s allow (array1d g) (array1d p).
Proof.
  intros Hcc Hlen Hg Hp. unfold valid_batch, valid_label, ndarray_ok.
  rewrite Hcc. simpl. rewrite Hlen.
  repeat split; try lia.
  - eapply Forall_impl; [exact Hg|]. simpl. intros; left; lia.
  - eapply Forall_impl; [exact Hp|]. simpl. intros; left; lia.
Qed.

Lemma finished2_ok : matrix_ok finished2 ∧ labels_ok finished2.
Proof.
  destruct finished2_fields as (Hcc & Hv & Ha & _).
  assert (Forall (λ c, 0 ≤ c < 1000) [1; 1; 0; 2]) as Hall
    by (repeat (constructor; [lia|]); constructor).
  destruct (small_object_ok finished2 _ Hcc Hv Ha eq_refl Hall) as (? & ? & _).
  by split.
Qed.

(** ** Fixed-width arithmetic *)

Lemma wrap_id w x : 0 < w → in_range w x → wrap w x = x.
Proof.
  unfold in_range, wrap. intros Hw Hx.
  assert (2 ^ w = 2 * 2 ^ (w - 1)) as Hp.
  { rewrite <- Z.pow_succ_r by lia. f_equal. lia. }
  rewrite Z.mod_small; lia.
Qed.

Lemma wrap_in_range w x : 0 < w → in_range w (wrap w x).
Proof.
  unfold in_range, wrap. intros Hw.
  assert (2 ^ w = 2 * 2 ^ (w - 1)) as Hp.
  { rewrite <- Z.pow_succ_r by lia. f_equal. lia. }
  assert (0 < 2 ^ w) by (apply Z.pow_pos_nonneg; lia).
  pose proof (Z.mod_pos_bound (x + 2 ^ (w - 1)) (2 ^ w)). lia.
Qed.

Lemma wrap_add_l w x y : 0 < w → wrap w (wrap w x + y) = wrap w (x + y).
Proof.
  unfold wrap. intros Hw. f_equal.
  assert (0 < 2 ^ w) by (apply Z.pow_pos_nonneg; lia).
  replace ((x + 2 ^ (w - 1)) mod 2 ^ w - 2 ^ (w - 1) + y + 2 ^ (w - 1))
    with ((x + 2 ^ (w - 1)) mod 2 ^ w + y) by lia.
  rewrite Zplus_mod_idemp_l. f_equal. lia.
Qed.

Lemma to_int32_id x : is_int32 x → to_int32 x = x.
Proof. by apply wrap_id. Qed.

Lemma to_int64_id x : is_int64 x → to_int64 x = x.
Proof. by apply wrap_id. Qed.

Lemma to_int64_is_int64 x : is_int64 (to_int64 x).
Proof. by apply wrap_in_range. Qed.

Lemma to_int64_add_l x y : to_int64 (to_int64 x + y) = to_int64 (x + y).
Proof. by apply wrap_add_l. Qed.

Lemma to_int64_sub_l x y : to_int64 (to_int64 x - y) = to_int64 (x - y).
Proof. unfold Z.sub. apply to_int64_add_l. Qed.

(** ** [np.unique] with counts *)

Lemma count_z_cons v x l :
  count_z v (x :: l) = (if v =? x then 1 else 0) + count_z v l.
Proof. unfold count_z. simpl. destruct (v =? x); simpl; lia. Qed.

Lemma assoc_count_cons v y c uc :
  assoc_count v ((y, c) :: uc) = (if y =? v then c else 0) + assoc_count v uc.
Proof. unfold assoc_count. simpl. destruct (y =? v); simpl; lia. Qed.

Lemma assoc_count_insert v x uc :
  assoc_count v (insert_count x uc)
  = (if v =? x then 1 else 0) + assoc_count v uc.
Proof.
  induction uc as [|[y c] uc IH]; simpl.
  - rewrite assoc_count_cons. unfold assoc_count. simpl.
    rewrite (Z.eqb_sym x v). lia.
  - destruct (Z.ltb_spec x y).
    + rewrite !assoc_count_cons. rewrite (Z.eqb_sym x v). lia.
    + destruct (Z.eqb_spec x y) as [->|Hne].
      * rewrite !assoc_count_cons. rewrite (Z.eqb_sym v y).
        destruct (y =? v); lia.
      * rewrite !assoc_count_cons, IH.
        destruct (Z.eqb_spec y v), (Z.eqb_spec v x); lia.
Qed.

Lemma assoc_count_unique v l :
  assoc_count v (foldr insert_count [] l) = count_z v l.
Proof.
  induction l as [|x l IH]; [done|].
  simpl. by rewrite assoc_count_insert, count_z_cons, IH.
Qed.

Lemma assoc_count_not_in v uc : v ∉ map fst uc → assoc_count v uc = 0.
Proof.
  induction uc as [|[y c] uc IH]; intros Hn; [done|].
  simpl in Hn. apply not_elem_of_cons in Hn as [Hne Hn].
  rewrite assoc_count_cons, IH by done.
  destruct (Z.eqb_spec y v); [congruence | done].
Qed.

Lemma insert_count_keys x uc y :
  y ∈ map fst (insert_count x uc) ↔ y = x ∨ y ∈ map fst uc.
Proof.
  induction uc as [|[z c] uc IH]; simpl.
  - rewrite list_elem_of_singleton. split; [by left | intros [?|H]; [done|]].
    by apply elem_of_nil in H.
  - destruct (Z.ltb_spec x z); simpl.
    + by rewrite elem_of_cons.
    + destruct (Z.eqb_spec x z) as [->|Hne]; simpl.
      * rewrite elem_of_cons. tauto.
      * rewrite !elem_of_cons, IH. tauto.
Qed.

Lemma insert_count_sorted x uc :
  StronglySorted Z.lt (map fst uc) →
  StronglySorted Z.lt (map fst (insert_count x uc)).
Proof.
  induction uc as [|[z c] uc IH]; simpl; intros Hs.
  - repeat constructor.
  - apply StronglySorted_inv in Hs as [Hs Hall].
    destruct (Z.ltb_spec x z); simpl.
    + constructor; [by constructor|]. constructor; [done|].
      eapply Forall_impl; [exact Hall|]. simpl. intros; lia.
    + destruct (Z.eqb_spec x z) as [->|Hne]; simpl.
      * by constructor.
      * constructor; [by apply IH|].
        apply Forall_forall. intros y Hy.
        apply insert_count_keys in Hy as [->|Hy]; [lia|].
        by eapply Forall_forall in Hall.
Qed.

Lemma unique_keys_sorted l :
  StronglySorted Z.lt (map fst (foldr insert_count [] l)).
Proof.
  induction l as [|x l IH]; simpl; [constructor|].
  by apply insert_count_sorted.
Qed.

Lemma unique_keys_elem l y :
  y ∈ map fst (foldr insert_count [] l) ↔ y ∈ l.
Proof.
  induction l as [|x l IH]; simpl; [done|].
  rewrite insert_count_keys, elem_of_cons, IH. tauto.
Qed.

Lemma unique_keys_NoDup l : NoDup (map fst (foldr insert_count [] l)).
Proof.
  pose proof (unique_keys_sorted l) as Hs.
  induction Hs as [|x k Hs IH Hall]; [constructor|].
  constructor; [|done].
  intros Hin. eapply Forall_forall in Hall; [|exact Hin]. lia.
Qed.

(** ** The flat view *)

Lemma adjust_index_nonneg n i :
  0 ≤ i < Z.of_nat n → adjust_index n i = Some (Z.to_nat i).
Proof.
  intros Hi. unfold adjust_index.
  destruct (Z.ltb_spec i 0); [lia|].
  destruct (Z.leb_spec 0 i); [|lia].
  destruct (Z.ltb_spec i (Z.of_nat n)); [done | lia].
Qed.

Lemma flat_getitem_in_range (a : list Z) idx :
  Forall (λ i, 0 ≤ i < Z.of_nat (length a)) idx →
  flat_getitem a idx = Some (map (λ i, default 0 (a !! Z.to_nat i)) idx).
Proof.
  induction 1 as [|i idx Hi _ IH]; [done|].
  simpl. rewrite adjust_index_nonneg by done. rewrite IH.
  destruct (lookup_lt_is_Some_2 a (Z.to_nat i)) as [v Hv]; [lia|].
  by rewrite Hv.
Qed.

Lemma zip_with_keys_counts {A} (f : A → Z → Z) (g : Z → A) (uc : list (Z * Z)) :
  zip_with f (map g (map fst uc)) (map snd uc)
  = map (λ p, f (g (fst p)) (snd p)) uc.
Proof. induction uc as [|[i c] uc IH]; simpl; [done | by rewrite IH]. Qed.

Lemma imap_int64_id (b : list Z) (f : nat → Z) :
  Forall is_int64 b → (∀ k, (k < length b)%nat → f k = 0) →
  imap (λ k x, to_int64 (x + f k)) b = b.
Proof.
  intros Hb Hf. apply list_eq. intros k. rewrite list_lookup_imap.
  destruct (b !! k) as [x|] eqn:Hk; [|done]. simpl.
  rewrite Hf by (by eapply lookup_lt_Some).
  rewrite Z.add_0_r, to_int64_id; [done|].
  eapply Forall_lookup_1; eauto.
Qed.

Lemma flat_setitem_counts (a : list Z) (uc : list (Z * Z)) :
  ∀ b : list Z,
    length b = length a → Forall is_int64 b →
    Forall (λ i, 0 ≤ i < Z.of_nat (length a)) (map fst uc) →
    NoDup (map fst uc) →
    (∀ i, i ∈ map fst uc → b !! Z.to_nat i = a !! Z.to_nat i) →
    flat_setitem b (map fst uc)
      (map (λ p, to_int64 (default 0 (a !! Z.to_nat (fst p)) + snd p)) uc)
    = Some (imap (λ k x, to_int64 (x + assoc_count (Z.of_nat k) uc)) b).
Proof.
  induction uc as [|[i c] uc IH]; intros b Hlen Hb Hrange Hnd Hagree.
  - simpl. f_equal. symmetry. by apply imap_int64_id.
  - simpl in *. apply Forall_cons in Hrange as [Hi Hrange].
    apply NoDup_cons in Hnd as [Hni Hnd].
    rewrite Hlen, adjust_index_nonneg by done.
    rewrite IH; try done.
    + f_equal. apply list_eq. intros k. rewrite !list_lookup_imap.
      destruct (decide (k = Z.to_nat i)) as [->|Hne].
      * rewrite list_lookup_insert_eq by lia.
        rewrite (Hagree i) by (by left).
        destruct (lookup_lt_is_Some_2 a (Z.to_nat i)) as [v Hv]; [lia|].
        rewrite Hv. simpl. rewrite assoc_count_cons.
        rewrite Z2Nat.id by lia. rewrite Z.eqb_refl.
        rewrite assoc_count_not_in by done.
        rewrite to_int64_add_l. do 2 f_equal. lia.
      * rewrite list_lookup_insert_ne by done.
        destruct (b !! k) as [x|]; [|done]. simpl.
        rewrite assoc_count_cons.
        destruct (Z.eqb_spec i (Z.of_nat k)); [lia|]. done.
    + by rewrite length_insert.
    + by apply Forall_insert; [|apply to_int64_is_int64].
    + intros j Hj. rewrite list_lookup_insert_ne.
      * apply Hagree. by right.
      * intros Heq. apply Hni.
        eapply Forall_forall in Hrange; [|exact Hj].
        assert (i = j) as -> by lia. done.
Qed.

Lemma counted_length a l : length (counted a l) = length a.
Proof. unfold counted. by rewrite length_imap. Qed.

Lemma counted_is_int64 a l : Forall is_int64 (counted a l).
Proof.
  unfold counted. apply Forall_lookup. intros k x Hk.
  rewrite list_lookup_imap in Hk.
  destruct (a !! k); simplify_eq/=. apply to_int64_is_int64.
Qed.

Lemma counted_app (a : list Z) l1 l2 :
  counted (counted a l1) l2 = counted a (l1 ++ l2).
Proof.
  unfold counted. apply list_eq. intros k. rewrite !list_lookup_imap.
  destruct (a !! k) as [x|]; [|done]. simpl. f_equal.
  unfold occurrences. rewrite List.filter_app, length_app.
  rewrite to_int64_add_l. f_equal. lia.
Qed.

Lemma counted_nil (a : list Z) : Forall is_int64 a → counted a [] = a.
Proof. intros Ha. unfold counted. by apply imap_int64_id. Qed.

(** What [flat_iadd] writes when every index names a cell from the
    front. *)
Lemma flat_iadd_counted s (l : list Z) :
  Forall is_int64 (confusion s) →
  Forall (λ i, 0 ≤ i < Z.of_nat (length (confusion s))) l →
  (let '(pairs, pair_counts) := unique_counts l in
   flat_iadd pairs pair_counts;; set_finished_computation false) s
  = (Ok tt, updated s (counted (confusion s) l)).
Proof.
  intros Hint Hrange. unfold unique_counts.
  set (uc := foldr insert_count [] l).
  assert (Forall (λ i, 0 ≤ i < Z.of_nat (length (confusion s))) (map fst uc))
    as Hkeys.
  { apply Forall_forall. intros i Hi.
    apply (proj1 (unique_keys_elem l i)) in Hi.
    rewrite Forall_forall in Hrange. exact (Hrange i Hi). }
  unfold flat_iadd, set_finished_computation, mbind, M_bind, get, put,
    otherwise, mret, M_ret, raise.
  rewrite flat_getitem_in_range by done.
  rewrite zip_with_keys_counts.
  rewrite (flat_setitem_counts (confusion s) uc (confusion s));
    [|done|done|done|apply unique_keys_NoDup|done].
  unfold updated, counted. simpl. do 2 f_equal.
  apply imap_ext. intros k x _. do 2 f_equal.
  unfold uc. rewrite assoc_count_unique. done.
Qed.

(** ** The counted elements *)

Lemma pairs_of_data void n allow gt pred :
  pairs_of void n allow gt pred
  = pairs_of void n allow (array1d (data gt)) (array1d (data pred)).
Proof. done. Qed.

Lemma pairs_of_nil_l void n allow p :
  pairs_of void n allow (array1d []) (array1d p) = [].
Proof. unfold pairs_of, non_void_mask. simpl. by destruct allow. Qed.

Lemma pairs_of_nil_r void n allow g :
  pairs_of void n allow (array1d g) (array1d []) = [].
Proof.
  assert (∀ m : list bool, compress m ([] : list Z) = []) as Hc
    by (by intros []).
  unfold pairs_of. simpl. rewrite Hc.
  by destruct (compress _ _).
Qed.

Lemma pairs_of_cons void n allow x g y p :
  pairs_of void n allow (array1d (x :: g)) (array1d (y :: p))
  = (if counted_element void allow x y then [flat_index n x y] else [])
    ++ pairs_of void n allow (array1d g) (array1d p).
Proof.
  unfold pairs_of, non_void_mask, counted_element, flat_index. simpl.
  destruct allow; simpl.
  - destruct (negb (to_int32 x =? void)), (negb (to_int32 y =? void)); done.
  - rewrite andb_true_r. destruct (negb (to_int32 x =? void)); done.
Qed.

Lemma pairs_of_app void n allow g1 p1 g2 p2 :
  length g1 = length p1 →
  pairs_of void n allow (array1d (g1 ++ g2)) (array1d (p1 ++ p2))
  = pairs_of void n allow (array1d g1) (array1d p1)
    ++ pairs_of void n allow (array1d g2) (array1d p2).
Proof.
  revert p1. induction g1 as [|x g1 IH]; intros [|y p1] Hlen;
    simplify_eq/=.
  - by rewrite pairs_of_nil_l.
  - rewrite !pairs_of_cons, IH by done. by rewrite app_assoc.
Qed.

Lemma pairs_of_delete void n allow g p i x y :
  g !! i = Some x → p !! i = Some y →
  counted_element void allow x y = false →
  pairs_of void n allow (array1d (delete i g)) (array1d (delete i p))
  = pairs_of void n allow (array1d g) (array1d p).
Proof.
  revert p i. induction g as [|x' g IH]; intros [|y' p] [|i] Hg Hp Hc;
    simplify_eq/=.
  - by rewrite pairs_of_cons, Hc.
  - rewrite !pairs_of_cons. f_equal. by eapply IH.
Qed.

Lemma non_void_mask_lookup void allow g p i x y :
  g !! i = Some x → p !! i = Some y →
  non_void_mask void allow (map to_int32 g) (map to_int32 p) !! i
  = Some (counted_element void allow x y).
Proof.
  unfold non_void_mask, counted_element.
  revert p i. induction g as [|x' g IH]; intros [|y' p] [|i] Hg Hp;
    simplify_eq/=.
  - destruct allow; simpl; [done | by rewrite andb_true_r].
  - specialize (IH p i Hg Hp). destruct allow; simpl in *; done.
Qed.

Lemma valid_class_label_is_int32 s x :
  labels_ok s → 0 ≤ x < Z.of_nat (class_count s) → is_int32 x.
Proof.
  intros (_ & _ & Hcc) Hx. unfold is_int32, in_range.
  rewrite Nat2Z.inj_mul in Hcc.
  change (2 ^ (32 - 1)) with (2 ^ 31). nia.
Qed.

Lemma counted_element_valid s allow x y :
  labels_ok s → valid_label s true x → valid_label s allow y →
  counted_element (void_label s) allow x y = true →
  0 ≤ x < Z.of_nat (class_count s) ∧ 0 ≤ y < Z.of_nat (class_count s).
Proof.
  intros Hok Hx Hy Hc. pose proof Hok as (Hneg & Hvoid & _).
  unfold counted_element in Hc. apply andb_true_iff in Hc as [Hcx Hcy].
  apply negb_true_iff, Z.eqb_neq in Hcx.
  split.
  - destruct Hx as [Hx|[_ ->]]; [done|]. by rewrite to_int32_id in Hcx.
  - destruct Hy as [Hy|[-> ->]]; [done|].
    apply negb_true_iff, Z.eqb_neq in Hcy. by rewrite to_int32_id in Hcy.
Qed.

Lemma flat_index_valid s x y :
  labels_ok s →
  0 ≤ x < Z.of_nat (class_count s) → 0 ≤ y < Z.of_nat (class_count s) →
  flat_index (class_count s) x y = x * Z.of_nat (class_count s) + y ∧
  0 ≤ flat_index (class_count s) x y
    < Z.of_nat (class_count s * class_count s).
Proof.
  intros Hok Hx Hy. pose proof Hok as (_ & _ & Hcc).
  unfold flat_index.
  rewrite (to_int32_id x), (to_int32_id y)
    by (by eapply valid_class_label_is_int32).
  rewrite Nat2Z.inj_mul in *.
  assert (0 ≤ x * Z.of_nat (class_count s) + y
          < Z.of_nat (class_count s) * Z.of_nat (class_count s)) by nia.
  assert (0 ≤ x * Z.of_nat (class_count s) < 2 ^ 31) by nia.
  rewrite (to_int32_id (x * _)), to_int32_id;
    unfold is_int32, in_range; change (2 ^ (32 - 1)) with (2 ^ 31); lia.
Qed.

Lemma pairs_of_valid s allow g p :
  labels_ok s →
  Forall (valid_label s true) g → Forall (valid_label s allow) p →
  Forall (λ i, 0 ≤ i < Z.of_nat (class_count s * class_count s))
    (pairs_of (void_label s) (class_count s) allow (array1d g) (array1d p)).
Proof.
  intros Hok Hg. revert p. induction Hg as [|x g Hx Hg IH]; intros p Hp.
  - by rewrite pairs_of_nil_l.
  - destruct Hp as [|y p Hy Hp]; [by rewrite pairs_of_nil_r|].
    rewrite pairs_of_cons. apply Forall_app. split; [|by apply IH].
    destruct (counted_element _ _ _ _) eqn:Hc; [|constructor].
    destruct (counted_element_valid s allow x y) as [Hx' Hy']; try done.
    constructor; [|constructor].
    by apply flat_index_valid.
Qed.

Lemma accumulate_run gt pred allow s :
  accumulate gt pred allow s
  = (let '(pairs, pair_counts) :=
       unique_counts
         (pairs_of (void_label s) (class_count s) allow gt pred) in
     flat_iadd pairs pair_counts;; set_finished_computation false) s.
Proof. done. Qed.

(** What [incremental_update] does with a batch of valid labels. *)
Lemma incremental_update_valid s gt pred allow uf :
  matrix_ok s → labels_ok s →
  shape gt = shape pred → length (data gt) = length (data pred) →
  Forall (valid_label s true) (data gt) →
  Forall (valid_label s allow) (data pred) →
  incremental_update gt pred allow uf s
  = if bool_decide (data gt = []) then (Raise MaxOfEmpty, s)
    else if finished_computation s && negb uf
    then (Raise UpdateAfterFinish, s)
    else (Ok tt,
          updated s
            (counted (confusion s)
               (pairs_of (void_label s) (class_count s) allow gt pred))).
Proof.
  intros [Hlen Hint] Hok Hsh Hl Hg Hp. pose proof Hok as (Hneg & _ & _).
  assert (∀ b x, valid_label s b x → x < Z.of_nat (class_count s)) as Hlt.
  { intros b x [Hx|[_ ->]]; lia. }
  rewrite incremental_update_run. unfold shape_eqb.
  rewrite bool_decide_eq_true_2 by done. simpl.
  assert (negb allow && contains (void_label s) pred = false) as ->.
  { destruct allow; [done|]. simpl.
    destruct (contains (void_label s) pred) eqn:Hc; [|done].
    apply contains_spec in Hc. rewrite Forall_forall in Hp.
    destruct (Hp _ Hc) as [?|[? _]]; [lia | done]. }
  destruct (amax gt) as [mg|] eqn:Hmg.
  2:{ apply amax_None in Hmg. by rewrite bool_decide_eq_true_2. }
  assert (data gt ≠ []) as Hne.
  { intros Hnil. apply amax_None in Hnil. congruence. }
  rewrite bool_decide_eq_false_2 by done.
  pose proof (amax_elem _ _ Hmg) as Hin. rewrite Forall_forall in Hg.
  pose proof (Hlt _ _ (Hg _ Hin)).
  destruct (Z.leb_spec (Z.of_nat (class_count s)) mg); [lia|].
  destruct (amax pred) as [mp|] eqn:Hmp.
  2:{ apply amax_None in Hmp. rewrite Hmp in Hl.
      destruct (data gt); [done | discriminate]. }
  pose proof (amax_elem _ _ Hmp) as Hin'. rewrite Forall_forall in Hp.
  pose proof (Hlt _ _ (Hp _ Hin')).
  destruct (Z.leb_spec (Z.of_nat (class_count s)) mp); [lia|].
  destruct (finished_computation s && negb uf); [done|].
  rewrite accumulate_run. apply flat_iadd_counted; [done|].
  rewrite Hlen, pairs_of_data. apply pairs_of_valid; by rewrite ?Forall_forall.
Qed.

Lemma valid_batch_length s allow gt pred :
  valid_batch s allow gt pred → length (data gt) = length (data pred).
Proof.
  intros (Hsh & Hg & Hp & _). unfold ndarray_ok in *. congruence.
Qed.

(** The object after [incremental_update] on a batch of valid labels:
    an update that is refused leaves the matrix, an update that is
    accepted counts the elements of the batch. *)
Lemma incremental_update_valid_after s gt pred allow uf :
  matrix_ok s → labels_ok s →
  shape gt = shape pred → length (data gt) = length (data pred) →
  Forall (valid_label s true) (data gt) →
  Forall (valid_label s allow) (data pred) →
  let s' := after (incremental_update gt pred allow uf s) in
  class_count s' = class_count s ∧ void_label s' = void_label s ∧
  matrix_ok s' ∧
  finished_computation s' && negb uf = finished_computation s && negb uf ∧
  confusion s'
  = if finished_computation s && negb uf then confusion s
    else counted (confusion s)
           (pairs_of (void_label s) (class_count s) allow gt pred).
Proof.
  intros Hm Hok Hsh Hl Hg Hp. simpl.
  rewrite incremental_update_valid by done.
  destruct Hm as [Hlen Hint].
  case_bool_decide as Hnil.
  - unfold after. simpl. repeat split; try done.
    destruct (finished_computation s && negb uf); [done|].
    rewrite pairs_of_data, Hnil, pairs_of_nil_l. by rewrite counted_nil.
  - destruct (finished_computation s && negb uf) eqn:Hst.
    + unfold after. simpl. by rewrite Hst.
    + unfold after, matrix_ok. simpl.
      rewrite counted_length. repeat split; try done.
      apply counted_is_int64.
Qed.

(** ** Accepted updates *)

Lemma incremental_update_accepts gt pred allow uf s mg mp :
  shape gt = shape pred →
  negb allow && contains (void_label s) pred = false →
  amax gt = Some mg → mg < Z.of_nat (class_count s) →
  amax pred = Some mp → mp < Z.of_nat (class_count s) →
  finished_computation s && negb uf = false →
  incremental_update gt pred allow uf s = accumulate gt pred allow s.
Proof.
  intros Hsh Hvoid Hmg Hlt Hmp Hlt' Hst.
  rewrite incremental_update_run. unfold shape_eqb.
  rewrite bool_decide_eq_true_2 by done. simpl.
  rewrite Hvoid, Hmg, Hmp, Hst.
  destruct (Z.leb_spec (Z.of_nat (class_count s)) mg); [lia|].
  destruct (Z.leb_spec (Z.of_nat (class_count s)) mp); [lia|]. done.
Qed.

Lemma incremental_update_ok_inv gt pred allow uf s :
  outcome (incremental_update gt pred allow uf s) = Ok tt →
  shape gt = shape pred ∧
  negb allow && contains (void_label s) pred = false ∧
  (∃ mg, amax gt = Some mg ∧ mg < Z.of_nat (class_count s)) ∧
  (∃ mp, amax pred = Some mp ∧ mp < Z.of_nat (class_count s)) ∧
  finished_computation s && negb uf = false ∧
  incremental_update gt pred allow uf s = accumulate gt pred allow s.
Proof.
  rewrite incremental_update_run. unfold shape_eqb, outcome.
  destruct (decide (shape gt = shape pred)) as [Hsh|Hsh].
  2:{ rewrite bool_decide_eq_false_2 by done. simpl. discriminate. }
  rewrite bool_decide_eq_true_2 by done. simpl.
  destruct (negb allow && contains (void_label s) pred); [discriminate|].
  destruct (amax gt) as [mg|]; [|discriminate].
  destruct (Z.leb_spec (Z.of_nat (class_count s)) mg); [discriminate|].
  destruct (amax pred) as [mp|]; [|discriminate].
  destruct (Z.leb_spec (Z.of_nat (class_count s)) mp); [discriminate|].
  destruct (finished_computation s && negb uf); [discriminate|].
  intros _. repeat split; eauto.
Qed.

Lemma accumulate_pairs_ext gt pred gt' pred' allow s :
  pairs_of (void_label s) (class_count s) allow gt pred
  = pairs_of (void_label s) (class_count s) allow gt' pred' →
  accumulate gt pred allow s = accumulate gt' pred' allow s.
Proof. intros Heq. rewrite !accumulate_run. by rewrite Heq. Qed.

Lemma accumulate_no_pairs gt pred allow s :
  pairs_of (void_label s) (class_count s) allow gt pred = [] →
  confusion (after (accumulate gt pred allow s)) = confusion s.
Proof. intros Heq. rewrite accumulate_run, Heq. done. Qed.

Lemma amax_delete a i mg :
  amax a = Some mg →
  amax (array1d (delete i (data a))) = None ∨
  ∃ m, amax (array1d (delete i (data a))) = Some m ∧ m ≤ mg.
Proof.
  intros Hmg. destruct (amax (array1d (delete i (data a)))) as [m|] eqn:Hm;
    [right | by left].
  exists m. split; [done|]. apply amax_elem in Hm. simpl in Hm.
  apply list_elem_of_delete_inv in Hm. by eapply amax_upper.
Qed.

(** ** Sums over the matrix *)

Lemma zsum_app l1 l2 : zsum (l1 ++ l2) = zsum l1 + zsum l2.
Proof. induction l1 as [|x l1 IH]; simpl; [done|]. unfold zsum in *. simpl. lia. Qed.

Lemma zsum_nonneg l : Forall (λ c, 0 ≤ c) l → 0 ≤ zsum l.
Proof. induction 1 as [|x l Hx _ IH]; unfold zsum in *; simpl; lia. Qed.

Lemma zsum_lookup_le l j x :
  Forall (λ c, 0 ≤ c) l → l !! j = Some x → 0 ≤ x ≤ zsum l.
Proof.
  intros Hl. revert j. induction Hl as [|y l Hy Hl IH]; intros [|j] Hj;
    simplify_eq/=.
  - pose proof (zsum_nonneg l Hl). unfold zsum in *. simpl. lia.
  - specialize (IH j Hj). unfold zsum in *. simpl. lia.
Qed.

Lemma zsum_map_le {A} (f g : A → Z) (l : list A) :
  (∀ i, i ∈ l → f i ≤ g i) → zsum (map f l) ≤ zsum (map g l).
Proof.
  induction l as [|i l IH]; intros Hle; [done|].
  unfold zsum in *. simpl.
  pose proof (Hle i ltac:(by left)).
  assert (∀ k, k ∈ l → f k ≤ g k) as Hle' by (intros; apply Hle; by right).
  specialize (IH Hle'). lia.
Qed.

Lemma zsum_map_ext {A} (f g : A → Z) (l : list A) :
  (∀ i, i ∈ l → f i = g i) → zsum (map f l) = zsum (map g l).
Proof.
  intros Heq. apply Z.le_antisymm; apply zsum_map_le; intros i Hi;
    rewrite (Heq i Hi); lia.
Qed.

Lemma row_nonneg n a i :
  Forall (λ c, 0 ≤ c) a → Forall (λ c, 0 ≤ c) (row n a i).
Proof. intros Ha. unfold row. by apply Forall_take, Forall_drop. Qed.

Lemma zsum_rows n a m :
  zsum (map (λ i, zsum (row n a i)) (seq 0 m)) = zsum (take (m * n) a).
Proof.
  induction m as [|m IH]; [done|].
  rewrite seq_S, map_app, zsum_app, IH.
  replace (S m * n)%nat with (m * n + n)%nat by lia.
  rewrite <- (take_take_drop a (m * n) n), zsum_app.
  unfold row. simpl. lia.
Qed.

Lemma zsum_rows_total n a :
  length a = (n * n)%nat →
  zsum (map (λ i, zsum (row n a i)) (seq 0 n)) = zsum a.
Proof. intros Hlen. rewrite zsum_rows, take_ge; [done | lia]. Qed.

Lemma cell_row n a i j :
  (j < n)%nat → cell n a i j = default 0 (row n a i !! j).
Proof.
  intros Hj. unfold cell, row. by rewrite lookup_take_lt, lookup_drop.
Qed.

Lemma cell_bounds n a i j :
  Forall (λ c, 0 ≤ c) a → (j < n)%nat → 0 ≤ cell n a i j ≤ zsum (row n a i).
Proof.
  intros Ha Hj. rewrite cell_row by done.
  pose proof (row_nonneg n a i Ha) as Hr.
  destruct (row n a i !! j) as [x|] eqn:Hx; simpl.
  - by eapply zsum_lookup_le.
  - pose proof (zsum_nonneg _ Hr). lia.
Qed.

Lemma zsum_replace_one (f : nat → Z) (A : Z) n i :
  (i < n)%nat →
  zsum (map (λ k, if decide (k = i) then A else f k) (seq 0 n))
  = A - f i + zsum (map f (seq 0 n)).
Proof.
  intros Hi. induction n as [|n IH]; [lia|].
  rewrite seq_S, !map_app, !zsum_app. simpl.
  destruct (decide (i = n)) as [->|Hne].
  - rewrite decide_True by done.
    rewrite (zsum_map_ext (λ k, if decide (k = n) then A else f k) f).
    + lia.
    + intros k Hk. apply elem_of_seq in Hk. rewrite decide_False; [done|lia].
  - rewrite IH by lia. rewrite decide_False by done. lia.
Qed.

(** The sums of a matrix of counts: each is between zero and the
    total, and so is the union of a row and a column. *)
Lemma sums_bounds n a i :
  length a = (n * n)%nat → Forall (λ c, 0 ≤ c) a → (i < n)%nat →
  let g := zsum (row n a i) in
  let p := zsum (col n a i) in
  let d := cell n a i i in
  0 ≤ d ≤ g ∧ d ≤ p ∧ g ≤ zsum a ∧ p ≤ zsum a ∧ g + p - d ≤ zsum a.
Proof.
  intros Hlen Ha Hi. simpl.
  pose proof (cell_bounds n a i i Ha Hi) as Hd.
  pose proof (zsum_rows_total n a Hlen) as Htot.
  assert (∀ k, 0 ≤ zsum (row n a k)) as Hrow
    by (intros k; apply zsum_nonneg, row_nonneg, Ha).
  assert (zsum (col n a i) ≤ zsum a) as Hp.
  { rewrite <- Htot. unfold col. apply zsum_map_le.
    intros k _. by apply cell_bounds. }
  assert (zsum (row n a i) + zsum (col n a i) - cell n a i i ≤ zsum a) as Hu.
  { pose proof (zsum_replace_one (λ k, cell n a k i) (zsum (row n a i)) n i
                  Hi) as Heq. simpl in Heq.
    assert (zsum (map (λ k, if decide (k = i) then zsum (row n a i)
                            else cell n a k i) (seq 0 n))
            ≤ zsum (map (λ k, zsum (row n a k)) (seq 0 n))) as Hle.
    { apply zsum_map_le. intros k _. destruct (decide (k = i)); [by subst|].
      by apply cell_bounds. }
    unfold col. lia. }
  assert (cell n a i i ≤ zsum (col n a i)) as Hdp.
  { unfold col.
    assert (zsum (map (λ k, if decide (k = i) then cell n a i i else 0)
                   (seq 0 n)) = cell n a i i) as <-.
    { rewrite (zsum_replace_one (λ _, 0) (cell n a i i) n i) by done.
      rewrite (zsum_map_ext (λ _ : nat, 0) (λ _, 0 * 0)) by done.
      clear. induction (seq 0 n); unfold zsum in *; simpl in *; lia. }
    apply zsum_map_le. intros k _. destruct (decide (k = i)); [by subst|].
    by apply cell_bounds. }
  repeat split; lia.
Qed.

(** ** [finish] on a matrix of counts *)

Lemma zip_with_map_same {A B C D} (f : B → C → D) (g : A → B) (h : A → C)
    (l : list A) :
  zip_with f (map g l) (map h l) = map (λ i, f (g i) (h i)) l.
Proof. induction l as [|i l IH]; simpl; [done | by rewrite IH]. Qed.

Lemma np_sum_id l : 0 ≤ zsum l < 2 ^ 63 → np_sum l = zsum l.
Proof.
  intros Hl. unfold np_sum. apply to_int64_id.
  unfold is_int64, in_range. change (2 ^ (64 - 1)) with (2 ^ 63). lia.
Qed.

Lemma diag_sum_bounds n a :
  length a = (n * n)%nat → Forall (λ c, 0 ≤ c) a →
  0 ≤ zsum (diag n a) ≤ zsum a.
Proof.
  intros Hlen Ha. split.
  - apply zsum_nonneg. unfold diag. apply Forall_forall. intros x Hx.
    apply list_elem_of_In, in_map_iff in Hx as (i & <- & Hi).
    apply in_seq in Hi. apply (cell_bounds n a i i Ha). lia.
  - rewrite <- (zsum_rows_total n a Hlen). unfold diag.
    apply zsum_map_le. intros i Hi. apply elem_of_seq in Hi.
    apply cell_bounds; [done | lia].
Qed.

Lemma unions_eq s :
  unions s
  = map (λ i, zsum (row (class_count s) (confusion s) i)
              + zsum (col (class_count s) (confusion s) i)
              - cell (class_count s) (confusion s) i i)
      (seq 0 (class_count s)).
Proof.
  unfold unions, gt_sums, pred_sums, diag.
  by rewrite !zip_with_map_same.
Qed.

(** The fields that [finish] assigns, in unbounded integers. *)
Lemma finish_fields s :
  counts_ok s →
  let n := class_count s in
  let a := confusion s in
  let s' := after (finish s) in
  confusion s' = a ∧ class_count s' = n ∧ finished_computation s' = true ∧
  gt_sum_per_class s' = Some (gt_sums s) ∧
  sum_per_class s' = Some (pred_sums s) ∧
  global_score s' = true_divide (zsum (diag n a)) (zsum a) ∧
  avg_score s' = nanmean (zip_with true_divide (diag n a) (gt_sums s)) ∧
  avg_iou_score s' = nanmean (zip_with true_divide (diag n a) (unions s)) ∧
  confusion_normalized_row s'
  = Some (zip_with (λ r g, map (λ x, true_divide x g) r)
            (rows n a) (gt_sums s)).
Proof.
  intros (Hlen & Ha & Htot). simpl.
  pose proof (zsum_nonneg _ Ha) as Hnn.
  assert (map (λ i, np_sum (row (class_count s) (confusion s) i))
            (seq 0 (class_count s)) = gt_sums s) as Hgt.
  { unfold gt_sums. apply map_ext_in. intros i Hi. apply in_seq in Hi.
    apply np_sum_id.
    pose proof (sums_bounds _ _ i Hlen Ha ltac:(lia)). simpl in *. lia. }
  assert (map (λ j, np_sum (col (class_count s) (confusion s) j))
            (seq 0 (class_count s)) = pred_sums s) as Hpred.
  { unfold pred_sums. apply map_ext_in. intros i Hi. apply in_seq in Hi.
    apply np_sum_id.
    pose proof (sums_bounds _ _ i Hlen Ha ltac:(lia)). simpl in *. lia. }
  unfold finish, after, mbind, M_bind, get, put. simpl.
  rewrite Hgt, Hpred.
  repeat split.
  - rewrite !np_sum_id; [done | lia |].
    pose proof (diag_sum_bounds _ _ Hlen Ha). lia.
  - do 2 f_equal. rewrite unions_eq. unfold gt_sums, pred_sums, diag.
    rewrite !zip_with_map_same. apply map_ext_in. intros i Hi.
    apply in_seq in Hi.
    pose proof (sums_bounds _ _ i Hlen Ha ltac:(lia)). simpl in *.
    rewrite to_int64_sub_l. apply to_int64_id.
    unfold is_int64, in_range. change (2 ^ (64 - 1)) with (2 ^ 63). lia.
Qed.

(** ** Quotients and means *)

Lemma inject_Z_nonzero g : g ≠ 0 → ¬ (inject_Z g == 0)%Q.
Proof. intros Hg Heq. unfold Qeq in Heq. simpl in Heq. lia. Qed.

Lemma Qeq_bool_inject_Z g : g ≠ 0 → Qeq_bool (inject_Z g) 0 = false.
Proof.
  intros Hg. destruct (Qeq_bool (inject_Z g) 0) eqn:Heq; [|done].
  apply Qeq_bool_eq in Heq. by apply inject_Z_nonzero in Heq.
Qed.

Lemma true_divide_defined x g :
  g ≠ 0 → true_divide x g = Fin (inject_Z x / inject_Z g).
Proof.
  intros Hg. unfold true_divide, of_int, fdiv.
  by rewrite Qeq_bool_inject_Z.
Qed.

Lemma true_divide_zero_zero : true_divide 0 0 = NaN.
Proof. reflexivity. Qed.

Lemma fsum_true_divide (l : list Z) g :
  g ≠ 0 →
  ∃ q, fsum (map (λ x, true_divide x g) l) = Fin q ∧
       (q == inject_Z (zsum l) / inject_Z g)%Q.
Proof.
  intros Hg. pose proof (inject_Z_nonzero g Hg) as Hg'.
  induction l as [|x l (q & Hq & Heq)].
  - exists 0%Q. split; [done|]. unfold zsum. simpl. field. done.
  - exists (inject_Z x / inject_Z g + q)%Q. split.
    + unfold fsum in *. simpl. rewrite Hq, true_divide_defined by done. done.
    + rewrite Heq. unfold zsum. simpl. fold (zsum l).
      rewrite inject_Z_plus. field. done.
Qed.

Lemma Qsgn_zero q : (q == 0)%Q → Qsgn q = 0.
Proof.
  unfold Qeq, Qsgn. simpl. intros Hq. rewrite Z.mul_1_r in Hq.
  by rewrite Hq.
Qed.

(** [np.nanmean] of quotients of integers, none of which is an
    infinity: the mean of the quotients that are defined. *)
Lemma nanmean_true_divide (num den : list Z) :
  Forall (λ nd, snd nd = 0 → fst nd = 0) (zip num den) →
  nanmean (zip_with true_divide num den) =f mean_of_defined num den.
Proof.
  intros Hall.
  assert (∃ q, fsum (map (λ x, if is_nan x then Fin 0 else x)
                       (zip_with true_divide num den)) = Fin q ∧
               (q == Qsum (defined_quotients num den))%Q ∧
               length (List.filter (λ x, negb (is_nan x))
                         (zip_with true_divide num den))
               = length (defined_quotients num den)) as (q & Hq & Heq & Hcnt).
  { revert den Hall. induction num as [|n num IH]; intros [|d den] Hall;
      try (exists 0%Q; by repeat split).
    apply Forall_cons in Hall as [Hnd Hall]. simpl in Hnd.
    destruct (IH den Hall) as (q & Hq & Heq & Hcnt).
    unfold defined_quotients in *. simpl.
    destruct (Z.eqb_spec d 0) as [->|Hd].
    - rewrite Hnd by done. rewrite true_divide_zero_zero. simpl.
      exists (0 + q)%Q. unfold fsum in *. rewrite Hq.
      split; [done|]. split; [|done]. rewrite Heq. apply Qplus_0_l.
    - rewrite true_divide_defined by done. simpl.
      exists (inject_Z n / inject_Z d + q)%Q. unfold fsum in *. rewrite Hq.
      split; [done|]. split; [|simpl; by rewrite Hcnt].
      rewrite Heq. reflexivity. }
  unfold nanmean, mean_of_defined. rewrite Hq, Hcnt.
  destruct (defined_quotients num den) as [|q0 qs] eqn:Hqs.
  - simpl in *. unfold fdiv, of_int.
    change (Qeq_bool (inject_Z 0) 0) with true. simpl.
    by rewrite Qsgn_zero.
  - unfold fdiv, of_int. rewrite Qeq_bool_inject_Z by (simpl; lia).
    simpl. by rewrite Heq.
Qed.

(** ** The other scores *)

(** The row of a class without ground-truth support: every entry is
    [0/0]. *)
Lemma normalized_row_undefined s i :
  counts_ok s → gt_sums s !! i = Some 0 →
  ∃ M r,
    confusion_normalized_row (after (finish s)) = Some M ∧
    M !! i = Some r ∧ Forall (λ x, x = NaN) r.
Proof.
  intros Hok Hg.
  destruct (finish_fields s Hok) as (_ & _ & _ & _ & _ & _ & _ & _ & Hrow).
  destruct Hok as (Hlen & Ha & Htot).
  simpl in *. eexists _, _. split; [exact Hrow|].
  assert (i < class_count s)%nat as Hi.
  { apply lookup_lt_Some in Hg. unfold gt_sums in Hg.
    by rewrite length_map, length_seq in Hg. }
  assert (zsum (row (class_count s) (confusion s) i) = 0) as Hsum.
  { unfold gt_sums in Hg.
    change (map ?f ?l) with (f <$> l) in Hg.
    rewrite list_lookup_fmap, lookup_seq_lt in Hg by done.
    by simplify_eq/=. }
  split.
  - rewrite lookup_zip_with, Hg. unfold rows.
    change (map ?f ?l) with (f <$> l).
    rewrite list_lookup_fmap, lookup_seq_lt by done. done.
  - pose proof (row_nonneg (class_count s) _ i Ha) as Hr.
    apply Forall_forall. intros x Hx.
    apply list_elem_of_In, in_map_iff in Hx as (c & <- & Hc).
    apply list_elem_of_In, list_elem_of_lookup in Hc as (j & Hj).
    pose proof (zsum_lookup_le _ _ _ Hr Hj).
    assert (c = 0) as -> by lia. apply true_divide_zero_zero.
Qed.

(** ** The matrix stays a matrix of counts *)

Lemma zsum_replicate_zero n : zsum (replicate n 0) = 0.
Proof. induction n as [|n IH]; [done|]. unfold zsum in *. simpl. lia. Qed.

Lemma zsum_map_add {A} (f g : A → Z) (l : list A) :
  zsum (map (λ k, f k + g k) l) = zsum (map f l) + zsum (map g l).
Proof. induction l as [|i l IH]; unfold zsum in *; simpl; lia. Qed.

Lemma zsum_imap_add (f : nat → Z) (a : list Z) :
  zsum (imap (λ k c, c + f k) a) = zsum a + zsum (map f (seq 0 (length a))).
Proof.
  revert f. induction a as [|x a IH]; intros f; [done|].
  rewrite imap_cons. simpl. rewrite <- seq_shift, map_map.
  unfold zsum in *. simpl.
  specialize (IH (f ∘ S)). simpl in IH. unfold compose in *. rewrite IH. lia.
Qed.

Lemma occurrences_cons k x l :
  occurrences k (x :: l)
  = (if decide (Z.of_nat k = x) then 1 else 0) + occurrences k l.
Proof.
  unfold occurrences. simpl.
  destruct (Z.eqb_spec (Z.of_nat k) x), (decide (Z.of_nat k = x));
    try done; simpl; lia.
Qed.

Lemma zsum_map_zero {A} (l : list A) : zsum (map (λ _, 0) l) = 0.
Proof. induction l as [|i l IH]; [done|]. unfold zsum in *. simpl. lia. Qed.

Lemma zsum_indicator x n :
  0 ≤ zsum (map (λ k, if decide (Z.of_nat k = x) then 1 else 0) (seq 0 n)) ≤ 1.
Proof.
  destruct (decide (0 ≤ x < Z.of_nat n)) as [Hx|Hx].
  - rewrite (zsum_map_ext _
               (λ k, if decide (k = Z.to_nat x) then 1 else (λ _, 0) k)).
    + rewrite zsum_replace_one by lia. rewrite zsum_map_zero. lia.
    + intros k _. destruct (decide (Z.of_nat k = x)), (decide (k = Z.to_nat x));
        try done; lia.
  - rewrite (zsum_map_ext _ (λ _, 0)).
    + rewrite zsum_map_zero. lia.
    + intros k Hk. apply elem_of_seq in Hk.
      destruct (decide (Z.of_nat k = x)); [lia | done].
Qed.

Lemma occurrences_bounds k l : 0 ≤ occurrences k l ≤ Z.of_nat (length l).
Proof.
  induction l as [|x l IH]; [done|].
  rewrite occurrences_cons. simpl length.
  destruct (decide (Z.of_nat k = x)); lia.
Qed.

Lemma zsum_occurrences l n :
  0 ≤ zsum (map (λ k, occurrences k l) (seq 0 n)) ≤ Z.of_nat (length l).
Proof.
  induction l as [|x l IH].
  - rewrite (zsum_map_ext _ (λ _, 0)) by done. by rewrite zsum_map_zero.
  - rewrite (zsum_map_ext _
               (λ k, (if decide (Z.of_nat k = x) then 1 else 0)
                     + occurrences k l))
      by (intros; apply occurrences_cons).
    rewrite zsum_map_add. pose proof (zsum_indicator x n).
    simpl length. lia.
Qed.

Lemma pairs_of_length void n allow g p :
  (length (pairs_of void n allow (array1d g) (array1d p)) ≤ length g)%nat.
Proof.
  revert p. induction g as [|x g IH]; intros [|y p];
    rewrite ?pairs_of_nil_l, ?pairs_of_nil_r; simpl; try lia.
  rewrite pairs_of_cons, length_app. specialize (IH p).
  destruct (counted_element _ _ _ _); simpl; lia.
Qed.

(** While the total fits an int64, counting keeps the matrix a matrix
    of counts: no cell wraps around. *)
Lemma counted_counts (a l : list Z) :
  Forall (λ c, 0 ≤ c) a → zsum a + Z.of_nat (length l) < 2 ^ 63 →
  counted a l = imap (λ k c, c + occurrences k l) a ∧
  Forall (λ c, 0 ≤ c) (counted a l) ∧
  zsum a ≤ zsum (counted a l) ≤ zsum a + Z.of_nat (length l).
Proof.
  intros Ha Hfit.
  assert (counted a l = imap (λ k c, c + occurrences k l) a) as Heq.
  { unfold counted. apply list_eq. intros k. rewrite !list_lookup_imap.
    destruct (a !! k) as [c|] eqn:Hk; [|done]. simpl. f_equal.
    pose proof (zsum_lookup_le _ _ _ Ha Hk).
    pose proof (occurrences_bounds k l).
    apply to_int64_id. unfold is_int64, in_range.
    change (2 ^ (64 - 1)) with (2 ^ 63). lia. }
  split; [done|]. rewrite Heq. split.
  - apply Forall_lookup. intros k c Hk. rewrite list_lookup_imap in Hk.
    destruct (a !! k) as [c'|] eqn:Hk'; simplify_eq/=.
    pose proof (Forall_lookup_1 _ _ _ _ Ha Hk').
    pose proof (occurrences_bounds k l). simpl in *. lia.
  - rewrite zsum_imap_add. pose proof (zsum_occurrences l (length a)). lia.
Qed.

(** * The statements of the specification *)

(** ** Updates after [finish] *)

(** Against C1 as it is written: on an object whose scores were
    computed, the call with the default flags ([update_finished] is
    [True] by default) raises nothing, and it changes the matrix. *)
Lemma default_update_after_finish_is_accepted :
  finished_computation finished2 = true ∧
  update_finished_default = true ∧
  outcome (incremental_update (array1d [0]) (array1d [0])
             allow_void_prediction_default update_finished_default
             finished2) = Ok tt ∧
  outcome (incremental_update (array1d [0]) (array1d [0])
             allow_void_prediction_default update_finished_default
             finished2) ≠ Raise UpdateAfterFinish ∧
  confusion (after (incremental_update (array1d [0]) (array1d [0])
                      allow_void_prediction_default update_finished_default
                      finished2))
  ≠ confusion finished2.
Proof. vm_compute. repeat split; discriminate. Qed.

(** C1, amended.  On an object whose scores were computed, for a batch
    of valid labels that holds elements: the call with
    [update_finished=False] (the caller asks for a fresh object; this
    is not the default) raises the [Exception] of the source and leaves
    the object as it was; the call with the default
    [update_finished=True] is accepted and clears the finished flag. *)
Theorem update_after_finish s gt pred allow :
  matrix_ok s → labels_ok s → valid_batch s allow gt pred →
  data gt ≠ [] → finished_computation s = true →
  (incremental_update gt pred allow false s = (Raise UpdateAfterFinish, s) ∧
   class_of UpdateAfterFinish = Exception) ∧
  update_finished_default = true ∧
  ∃ s', incremental_update gt pred allow update_finished_default s
        = (Ok tt, s') ∧
        finished_computation s' = false.
Proof.
  intros Hm Hok Hv Hne Hfin.
  pose proof (valid_batch_length _ _ _ _ Hv) as Hl.
  destruct Hv as (Hsh & _ & _ & Hg & Hp).
  rewrite !incremental_update_valid by done.
  rewrite bool_decide_eq_false_2 by done. rewrite Hfin. simpl.
  repeat split. eexists. split; [reflexivity|]. done.
Qed.

Lemma update_after_finish_witness :
  (incremental_update (array1d [0]) (array1d [1]) false false finished2
   = (Raise UpdateAfterFinish, finished2) ∧
   class_of UpdateAfterFinish = Exception) ∧
  update_finished_default = true ∧
  ∃ s', incremental_update (array1d [0]) (array1d [1]) false
          update_finished_default finished2
        = (Ok tt, s') ∧
        finished_computation s' = false.
Proof.
  destruct finished2_ok as [Hm Hl].
  apply update_after_finish; [exact Hm | exact Hl | | discriminate | reflexivity].
  unfold valid_batch, valid_label, ndarray_ok.
  destruct finished2_fields as (-> & _).
  repeat split; try reflexivity;
    (constructor; [left; simpl; lia | constructor]).
Defined.

(** ** The average IoU *)

(** Against C2 as it is written: for the matrix [[1,1],[0,0]] class 1
    has no ground-truth support but was predicted once; its IoU 0/1 is
    in the mean, which is 1/4, and not the 1/2 that the mean over the
    classes with ground-truth support would be. *)
Lemma iou_mean_keeps_predicted_only_class :
  rows 2 (confusion predicted_only) = [[1; 1]; [0; 0]] ∧
  gt_sums predicted_only = [2; 0] ∧
  pred_sums predicted_only = [1; 1] ∧
  avg_iou_score (after (finish predicted_only)) =f Fin (1 # 4) ∧
  mean_over_gt_support predicted_only =f Fin (1 # 2) ∧
  ¬ (avg_iou_score (after (finish predicted_only))
     =f mean_over_gt_support predicted_only).
Proof. vm_compute. repeat split; congruence. Qed.

(** C2, amended.  After [finish] on a matrix of counts, the average
    IoU is the mean of [diag[i] / (gt_sum[i] + pred_sum[i] - diag[i])]
    over the classes for which this denominator is not zero.  The
    denominator of a class is zero exactly when the class has neither
    ground-truth nor predicted support: a class that was predicted but
    has no ground-truth support stays in the mean. *)
Theorem avg_iou_score_is_mean_over_union_support s :
  counts_ok s →
  avg_iou_score (after (finish s))
  =f mean_of_defined (diag (class_count s) (confusion s)) (unions s) ∧
  ∀ i g p u,
    gt_sums s !! i = Some g → pred_sums s !! i = Some p →
    unions s !! i = Some u →
    u = g + p - cell (class_count s) (confusion s) i i ∧
    (u = 0 ↔ g = 0 ∧ p = 0).
Proof.
  intros Hok.
  destruct (finish_fields s Hok) as (_ & _ & _ & _ & _ & _ & _ & -> & _).
  destruct Hok as (Hlen & Ha & Htot).
  split.
  - apply nanmean_true_divide. rewrite unions_eq. unfold diag.
    rewrite zip_with_map_same. apply Forall_forall. intros nd Hnd.
    apply list_elem_of_In, in_map_iff in Hnd as (i & <- & Hi).
    apply in_seq in Hi. simpl.
    pose proof (sums_bounds _ _ i Hlen Ha ltac:(lia)). simpl in *. lia.
  - intros i g p u Hg Hp Hu.
    assert (i < class_count s)%nat as Hi.
    { apply lookup_lt_Some in Hg. unfold gt_sums in Hg.
      by rewrite length_map, length_seq in Hg. }
    rewrite unions_eq in Hu. unfold gt_sums, pred_sums in *.
    change (map ?f ?l) with (f <$> l) in *.
    rewrite list_lookup_fmap, lookup_seq_lt in Hg, Hp, Hu by done.
    simplify_eq/=.
    pose proof (sums_bounds _ _ i Hlen Ha Hi). simpl in *. lia.
Qed.

Lemma avg_iou_score_is_mean_over_union_support_witness :
  avg_iou_score (after (finish finished2))
  =f mean_of_defined (diag (class_count finished2) (confusion finished2))
       (unions finished2) ∧
  ∀ i g p u,
    gt_sums finished2 !! i = Some g → pred_sums finished2 !! i = Some p →
    unions finished2 !! i = Some u →
    u = g + p - cell (class_count finished2) (confusion finished2) i i ∧
    (u = 0 ↔ g = 0 ∧ p = 0).
Proof.
  apply avg_iou_score_is_mean_over_union_support.
  exact finished2_counts_ok.
Defined.

(** ** Rejected updates are atomic *)

(** C3.  When a precondition of [incremental_update] is violated (the
    shapes differ, a label is at least [class_count], the prediction
    holds the void label and void predictions are not allowed, or the
    scores were computed and updates after that are not allowed), the
    call raises an exception of the class of that precondition's error
    and the object is exactly as before the call: matrix, finished flag
    and every other field.  For inputs that hold elements, the
    exception is that of a precondition that is violated. *)
Theorem rejected_update_is_atomic s gt pred allow uf e0 :
  violates s gt pred allow uf e0 →
  ∃ e, incremental_update gt pred allow uf s = (Raise e, s) ∧
       isinstance e (class_of e0) ∧
       (data gt ≠ [] → data pred ≠ [] → violates s gt pred allow uf e).
Proof.
  intros Hv. rewrite incremental_update_run. unfold shape_eqb.
  destruct (decide (shape gt = shape pred)) as [Hsh|Hsh].
  2:{ rewrite bool_decide_eq_false_2 by done. simpl.
      exists ShapeMismatch. split; [done|]. split.
      - destruct Hv; unfold isinstance; simpl; auto.
      - intros _ _. by constructor. }
  rewrite bool_decide_eq_true_2 by done. simpl.
  destruct (negb allow && contains (void_label s) pred) eqn:Hvoid.
  { apply andb_true_iff in Hvoid as [Ha Hc]. apply negb_true_iff in Ha.
    apply contains_spec in Hc.
    exists VoidPrediction. split; [done|]. split.
    - destruct Hv; unfold isinstance; simpl; auto.
    - intros _ _. by constructor. }
  destruct (amax gt) as [mg|] eqn:Hmg.
  2:{ exists MaxOfEmpty. split; [done|]. split.
      - destruct Hv; unfold isinstance; simpl; auto.
      - intros Hne. by apply amax_None in Hmg. }
  destruct (Z.of_nat (class_count s) <=? mg) eqn:Hgt.
  { apply Z.leb_le in Hgt. exists GtExceedsClassCount. split; [done|]. split.
    - destruct Hv; unfold isinstance; simpl; auto.
    - intros _ _. apply violates_gt with mg; [by apply amax_elem | done]. }
  apply Z.leb_gt in Hgt.
  destruct (amax pred) as [mp|] eqn:Hmp.
  2:{ exists MaxOfEmpty. split; [done|]. split.
      - destruct Hv; unfold isinstance; simpl; auto.
      - intros _ Hne. by apply amax_None in Hmp. }
  destruct (Z.of_nat (class_count s) <=? mp) eqn:Hpred.
  { apply Z.leb_le in Hpred. exists PredExceedsClassCount.
    split; [done|]. split.
    - destruct Hv; unfold isinstance; simpl; auto.
    - intros _ _. apply violates_pred with mp; [by apply amax_elem | done]. }
  apply Z.leb_gt in Hpred.
  destruct (finished_computation s && negb uf) eqn:Hstale.
  { apply andb_true_iff in Hstale as [Hf Hu]. apply negb_true_iff in Hu.
    exists UpdateAfterFinish. split; [done|]. split.
    - destruct Hv as [Hne|Hal Hin|x Hin Hle|x Hin Hle|_ _];
        unfold isinstance; simpl; [| | | |by left]; exfalso.
      + done.
      + apply contains_spec in Hin. rewrite Hal, Hin in Hvoid. done.
      + pose proof (amax_upper _ _ _ Hmg Hin). lia.
      + pose proof (amax_upper _ _ _ Hmp Hin). lia.
    - intros _ _. by constructor. }
  exfalso. destruct Hv as [Hne|Hal Hin|x Hin Hle|x Hin Hle|Hf Hu].
  - done.
  - apply contains_spec in Hin. rewrite Hal, Hin in Hvoid. done.
  - pose proof (amax_upper _ _ _ Hmg Hin). lia.
  - pose proof (amax_upper _ _ _ Hmp Hin). lia.
  - rewrite Hf, Hu in Hstale. done.
Qed.

Lemma rejected_update_is_atomic_witness :
  ∃ e, incremental_update (array1d [0; 2]) (array1d [0; 1]) false true fresh2
       = (Raise e, fresh2) ∧
       isinstance e (class_of GtExceedsClassCount) ∧
       (data (array1d [0; 2]) ≠ [] → data (array1d [0; 1]) ≠ [] →
        violates fresh2 (array1d [0; 2]) (array1d [0; 1]) false true e).
Proof.
  apply rejected_update_is_atomic.
  apply violates_gt with 2; [|vm_compute; discriminate].
  simpl. apply elem_of_cons. right. apply elem_of_cons. by left.
Defined.

(** ** The worked example *)

(** C4.  A fresh object with two classes and void label [-1], updated
    with ground truth [0,0,1,1] and prediction [0,1,1,1], holds the
    matrix [[1,1],[0,2]]; after [finish] the global score is 3/4, the
    average score is 3/4, and the average IoU is the mean 7/12 of 1/2
    and 2/3, which is 0.583 to three places. *)
Theorem worked_example :
  __init__ None (-1) (Some 2%nat) = Ok fresh2 ∧
  finished_computation fresh2 = false ∧
  rows 2 (confusion fresh2) = [[0; 0]; [0; 0]] ∧
  let r := incremental_update (array1d [0; 0; 1; 1]) (array1d [0; 1; 1; 1])
             allow_void_prediction_default update_finished_default fresh2 in
  outcome r = Ok tt ∧
  rows 2 (confusion (after r)) = [[1; 1]; [0; 2]] ∧
  let r' := finish (after r) in
  outcome r' = Ok tt ∧
  rows 2 (confusion (after r')) = [[1; 1]; [0; 2]] ∧
  global_score (after r') =f Fin (75 # 100) ∧
  avg_score (after r') =f Fin (75 # 100) ∧
  avg_iou_score (after r') =f Fin (((1 # 2) + (2 # 3)) / 2) ∧
  match avg_iou_score (after r') with
  | Fin q => (Qabs (q - (583 # 1000)) < 1 # 1000)%Q
  | _ => False
  end.
Proof. vm_compute. repeat split; congruence. Qed.

(** ** Batches *)

(** C5.  For batches of valid labels and any object (its matrix a
    [class_count x class_count] array of int64 cells, its labels within
    the int32 that the labels are cast to), updating once with the
    concatenation of two batches leaves the same matrix as updating
    with the first batch and then with the second, and the same matrix
    as updating with the two batches in the other order.  When both
    batches hold elements, the two calls in sequence end in the same
    outcome and the same object as the one call. *)
Theorem update_of_concatenation s gt1 pred1 gt2 pred2 gt pred allow uf :
  matrix_ok s → labels_ok s →
  valid_batch s allow gt1 pred1 → valid_batch s allow gt2 pred2 →
  shape gt = shape pred →
  data gt = data gt1 ++ data gt2 → data pred = data pred1 ++ data pred2 →
  let one := incremental_update gt pred allow uf in
  let first := incremental_update gt1 pred1 allow uf in
  let second := incremental_update gt2 pred2 allow uf in
  confusion (after (second (after (first s)))) = confusion (after (one s)) ∧
  confusion (after (first (after (second s)))) = confusion (after (one s)) ∧
  (data gt1 ≠ [] → data gt2 ≠ [] → (first;; second) s = one s).
Proof.
  intros Hm Hok Hv1 Hv2 Hsh Hgt Hpred. simpl.
  pose proof (valid_batch_length _ _ _ _ Hv1) as Hl1.
  pose proof (valid_batch_length _ _ _ _ Hv2) as Hl2.
  destruct Hv1 as (Hsh1 & _ & _ & Hg1 & Hp1).
  destruct Hv2 as (Hsh2 & _ & _ & Hg2 & Hp2).
  assert (length (data gt) = length (data pred)) as Hl
    by (rewrite Hgt, Hpred, !length_app; lia).
  assert (Forall (valid_label s true) (data gt)) as Hg
    by (rewrite Hgt; by apply Forall_app).
  assert (Forall (valid_label s allow) (data pred)) as Hp
    by (rewrite Hpred; by apply Forall_app).
  assert (pairs_of (void_label s) (class_count s) allow gt pred
          = pairs_of (void_label s) (class_count s) allow gt1 pred1
            ++ pairs_of (void_label s) (class_count s) allow gt2 pred2)
    as Hpairs.
  { rewrite (pairs_of_data _ _ _ gt), Hgt, Hpred, pairs_of_app by done.
    by rewrite <- !pairs_of_data. }
  assert (∀ s', class_count s' = class_count s →
                void_label s' = void_label s →
                ∀ b x, valid_label s b x → valid_label s' b x) as Hvl.
  { intros s' Hc Hv b x. unfold valid_label. by rewrite Hc, Hv. }
  assert (∀ s', class_count s' = class_count s →
                void_label s' = void_label s → labels_ok s') as Hlo.
  { intros s' Hc Hv. unfold labels_ok. by rewrite Hc, Hv. }
  pose proof (incremental_update_valid_after s gt pred allow uf
                Hm Hok Hsh Hl Hg Hp) as (_ & _ & _ & _ & Hone).
  pose proof (incremental_update_valid_after s gt1 pred1 allow uf
                Hm Hok Hsh1 Hl1 Hg1 Hp1) as (Hc1 & Hvd1 & Hm1 & Hst1 & Ha1).
  pose proof (incremental_update_valid_after s gt2 pred2 allow uf
                Hm Hok Hsh2 Hl2 Hg2 Hp2) as (Hc2 & Hvd2 & Hm2 & Hst2 & Ha2).
  simpl in *.
  split; [|split].
  - set (s1 := after (incremental_update gt1 pred1 allow uf s)) in *.
    pose proof (incremental_update_valid_after s1 gt2 pred2 allow uf
                  Hm1 (Hlo _ Hc1 Hvd1) Hsh2 Hl2) as IH.
    destruct IH as (_ & _ & _ & _ & ->).
    + eapply Forall_impl; [exact Hg2 | by apply Hvl].
    + eapply Forall_impl; [exact Hp2 | by apply Hvl].
    + rewrite Hst1, Ha1, Hone, Hc1, Hvd1, Hpairs.
      destruct (finished_computation s && negb uf); [done|].
      apply counted_app.
  - set (s2 := after (incremental_update gt2 pred2 allow uf s)) in *.
    pose proof (incremental_update_valid_after s2 gt1 pred1 allow uf
                  Hm2 (Hlo _ Hc2 Hvd2) Hsh1 Hl1) as IH.
    destruct IH as (_ & _ & _ & _ & ->).
    + eapply Forall_impl; [exact Hg1 | by apply Hvl].
    + eapply Forall_impl; [exact Hp1 | by apply Hvl].
    + rewrite Hst2, Ha2, Hone, Hc2, Hvd2, Hpairs.
      destruct (finished_computation s && negb uf); [done|].
      rewrite !counted_app. unfold counted. apply imap_ext.
      intros k x _. do 2 f_equal. unfold occurrences.
      rewrite !List.filter_app, !length_app. lia.
  - intros Hne1 Hne2.
    assert (data gt ≠ []) as Hne.
    { rewrite Hgt. intros Hnil. by apply app_eq_nil in Hnil as [? _]. }
    unfold mbind, M_bind.
    rewrite (incremental_update_valid s gt1) by done.
    rewrite (incremental_update_valid s gt) by done.
    rewrite !bool_decide_eq_false_2 by done.
    destruct (finished_computation s && negb uf) eqn:Hst; [done|].
    set (s1 := updated s _).
    assert (after (incremental_update gt1 pred1 allow uf s) = s1) as Hs1.
    { rewrite (incremental_update_valid s gt1) by done.
      rewrite bool_decide_eq_false_2 by done. by rewrite Hst. }
    rewrite Hs1 in *.
    rewrite (incremental_update_valid s1 gt2); try done.
    rewrite bool_decide_eq_false_2 by done. simpl.
    unfold s1, updated. simpl. rewrite Hpairs, counted_app. done.
Qed.

Lemma update_of_concatenation_witness :
  let one := incremental_update (array1d [0; 0; 1; 1]) (array1d [0; 1; 1; 1])
               false true in
  let first := incremental_update (array1d [0; 0]) (array1d [0; 1])
                 false true in
  let second := incremental_update (array1d [1; 1]) (array1d [1; 1])
                  false true in
  confusion (after (second (after (first fresh2))))
  = confusion (after (one fresh2)) ∧
  confusion (after (first (after (second fresh2))))
  = confusion (after (one fresh2)) ∧
  (data (array1d [0; 0]) ≠ [] → data (array1d [1; 1]) ≠ [] →
   (first;; second) fresh2 = one fresh2).
Proof.
  destruct fresh2_ok as [Hm Hl]. destruct fresh2_fields as (Hcc & _).
  apply (update_of_concatenation fresh2 (array1d [0; 0]) (array1d [0; 1])
           (array1d [1; 1]) (array1d [1; 1]));
    [exact Hm | exact Hl | | | reflexivity | reflexivity | reflexivity].
  - apply valid_batch_two_classes; [exact Hcc | reflexivity | |];
      repeat (constructor; [lia|]); constructor.
  - apply valid_batch_two_classes; [exact Hcc | reflexivity | |];
      repeat (constructor; [lia|]); constructor.
Defined.

(** ** The trace identity *)

(** Against C6 as it is written: for the matrix of zeros the global
    score is 0/0, which is [nan], and [nan] times the total is not the
    sum of the diagonal. *)
Lemma trace_identity_fails_for_zero_matrix :
  confusion fresh2 = [0; 0; 0; 0] ∧
  global_score (after (finish fresh2)) = NaN ∧
  ¬ (fmul (global_score (after (finish fresh2)))
       (of_int (zsum (confusion fresh2)))
     =f of_int (zsum (diag (class_count fresh2) (confusion fresh2)))).
Proof. vm_compute. repeat split; tauto. Qed.

(** C6, amended.  After [finish], for a matrix of counts that holds at
    least one count, the global score times the total is the sum of the
    diagonal (in exact arithmetic). *)
Theorem trace_identity s :
  counts_ok s → 0 < zsum (confusion s) →
  fmul (global_score (after (finish s))) (of_int (zsum (confusion s)))
  =f of_int (zsum (diag (class_count s) (confusion s))).
Proof.
  intros Hok Hpos.
  destruct (finish_fields s Hok) as (_ & _ & _ & _ & _ & -> & _).
  rewrite true_divide_defined by lia. simpl.
  field. apply inject_Z_nonzero. lia.
Qed.

Lemma trace_identity_witness :
  fmul (global_score (after (finish finished2)))
    (of_int (zsum (confusion finished2)))
  =f of_int (zsum (diag (class_count finished2) (confusion finished2))).
Proof.
  apply trace_identity.
  - exact finished2_counts_ok.
  - vm_compute. reflexivity.
Defined.

(** ** Normalized rows *)

(** C7.  After [finish] on a matrix of counts, for a class [i] with
    ground-truth support (the sum [g] of row [i] is not zero), row [i]
    of the row-normalized matrix holds the cells of row [i] divided by
    [g], and its entries sum to 1 (in exact arithmetic; the rows of the
    classes without support are left to [normalized_row_undefined]). *)
Theorem normalized_row_sums_to_one s i g :
  counts_ok s → gt_sums s !! i = Some g → g ≠ 0 →
  ∃ M r,
    confusion_normalized_row (after (finish s)) = Some M ∧
    gt_sum_per_class (after (finish s)) = Some (gt_sums s) ∧
    M !! i = Some r ∧
    r = map (λ x, true_divide x g) (row (class_count s) (confusion s) i) ∧
    fsum r =f Fin 1.
Proof.
  intros Hok Hg Hne.
  destruct (finish_fields s Hok) as (_ & _ & _ & Hgt & _ & _ & _ & _ & Hrow).
  simpl in *. eexists _, _. split; [exact Hrow|]. split; [exact Hgt|].
  assert (i < class_count s)%nat as Hi.
  { apply lookup_lt_Some in Hg. unfold gt_sums in Hg.
    by rewrite length_map, length_seq in Hg. }
  assert (g = zsum (row (class_count s) (confusion s) i)) as Hsum.
  { unfold gt_sums in Hg.
    change (map ?f ?l) with (f <$> l) in Hg.
    rewrite list_lookup_fmap, lookup_seq_lt in Hg by done.
    by simplify_eq/=. }
  split; [|split; [reflexivity|]].
  - rewrite lookup_zip_with, Hg. unfold rows.
    change (map ?f ?l) with (f <$> l).
    rewrite list_lookup_fmap, lookup_seq_lt by done. done.
  - destruct (fsum_true_divide (row (class_count s) (confusion s) i) g Hne)
      as (q & -> & Hq).
    simpl. rewrite Hq, <- Hsum. field. by apply inject_Z_nonzero.
Qed.

Lemma normalized_row_sums_to_one_witness :
  ∃ M r,
    confusion_normalized_row (after (finish finished2)) = Some M ∧
    gt_sum_per_class (after (finish finished2)) = Some (gt_sums finished2) ∧
    M !! 0%nat = Some r ∧
    r = map (λ x, true_divide x 2)
          (row (class_count finished2) (confusion finished2) 0) ∧
    fsum r =f Fin 1.
Proof.
  apply (normalized_row_sums_to_one finished2 0 2).
  - exact finished2_counts_ok.
  - vm_compute. reflexivity.
  - lia.
Defined.

(** ** Void elements *)

(** C8.  In an update that is accepted, an element whose ground-truth
    label is the void label is masked out, whatever its prediction and
    whatever [allow_void_prediction]; with [allow_void_prediction] so is
    an element whose predicted label is the void label.  Such an
    element adds to no cell: the update without it leaves the same
    matrix.  The void label is taken within int32, the type the labels
    are cast to before they are compared with it. *)
Theorem void_elements_are_not_counted s gt pred allow uf i g p :
  is_int32 (void_label s) →
  ndarray_ok gt → ndarray_ok pred →
  outcome (incremental_update gt pred allow uf s) = Ok tt →
  data gt !! i = Some g → data pred !! i = Some p →
  g = void_label s ∨ (allow = true ∧ p = void_label s) →
  non_void_mask (void_label s) allow
    (map to_int32 (flatten gt)) (map to_int32 (flatten pred)) !! i
  = Some false ∧
  confusion (after (incremental_update
                      (array1d (delete i (data gt)))
                      (array1d (delete i (data pred))) allow uf s))
  = confusion (after (incremental_update gt pred allow uf s)).
Proof.
  intros Hvoid Hokg Hokp Hrun Hg Hp Hcase.
  assert (counted_element (void_label s) allow g p = false) as Hc.
  { unfold counted_element.
    destruct Hcase as [->|[-> ->]];
      rewrite (to_int32_id (void_label s)), Z.eqb_refl by done;
      simpl; [done | by rewrite andb_false_r]. }
  split.
  { unfold flatten. by rewrite (non_void_mask_lookup _ _ _ _ _ g p), Hc. }
  apply incremental_update_ok_inv in Hrun
    as (Hsh & Hnv & (mg & Hmg & Hlt) & (mp & Hmp & Hlt') & Hst & ->).
  assert (length (data gt) = length (data pred)) as Hlen
    by (unfold ndarray_ok in *; congruence).
  set (gt' := array1d (delete i (data gt))).
  set (pred' := array1d (delete i (data pred))).
  assert (pairs_of (void_label s) (class_count s) allow gt' pred'
          = pairs_of (void_label s) (class_count s) allow gt pred) as Hpairs.
  { rewrite (pairs_of_data _ _ _ gt pred). by eapply pairs_of_delete. }
  assert (shape gt' = shape pred') as Hsh'.
  { unfold gt', pred'. simpl. rewrite !length_delete by eauto. by rewrite Hlen. }
  assert (negb allow && contains (void_label s) pred' = false) as Hnv'.
  { destruct allow; [done|]. simpl in *.
    destruct (contains (void_label s) pred') eqn:Hc'; [|done].
    apply contains_spec in Hc'. simpl in Hc'.
    apply list_elem_of_delete_inv, contains_spec in Hc'. congruence. }
  destruct (amax_delete gt i mg Hmg) as [Hnone|(m & Hm & Hle)].
  - (* nothing is left of the batch *)
    rewrite incremental_update_run. unfold shape_eqb.
    rewrite bool_decide_eq_true_2 by done. simpl.
    fold gt' in Hnone. rewrite Hnv', Hnone. unfold after at 1. simpl.
    symmetry. apply accumulate_no_pairs. rewrite <- Hpairs.
    apply amax_None in Hnone. rewrite (pairs_of_data _ _ _ gt' pred'), Hnone.
    apply pairs_of_nil_l.
  - destruct (amax_delete pred i mp Hmp) as [Hnone|(m' & Hm' & Hle')].
    + apply amax_None in Hnone. simpl in Hnone.
      apply amax_elem in Hm. simpl in Hm.
      assert (length (delete i (data gt)) = length (delete i (data pred)))
        as Hl' by (rewrite !length_delete by eauto; by rewrite Hlen).
      rewrite Hnone in Hl'. destruct (delete i (data gt)); [|done].
      by apply elem_of_nil in Hm.
    + rewrite (incremental_update_accepts gt' pred' allow uf s m m');
        try done; try lia.
      by rewrite (accumulate_pairs_ext gt' pred' gt pred).
Qed.

Lemma void_elements_are_not_counted_witness :
  non_void_mask (void_label fresh2) false
    (map to_int32 (flatten (array1d [-1; 0])))
    (map to_int32 (flatten (array1d [1; 0]))) !! 0%nat
  = Some false ∧
  confusion (after (incremental_update
                      (array1d (delete 0%nat (data (array1d [-1; 0]))))
                      (array1d (delete 0%nat (data (array1d [1; 0]))))
                      false true fresh2))
  = confusion (after (incremental_update (array1d [-1; 0]) (array1d [1; 0])
                        false true fresh2)).
Proof.
  apply (void_elements_are_not_counted fresh2 (array1d [-1; 0])
           (array1d [1; 0]) false true 0 (-1) 1).
  - destruct fresh2_fields as (_ & -> & _).
    unfold is_int32, in_range. simpl. lia.
  - reflexivity.
  - reflexivity.
  - vm_compute. reflexivity.
  - reflexivity.
  - reflexivity.
  - left. vm_compute. reflexivity.
Defined.

(** ** Labels below zero *)

(** C9.  There is an input with a negative label that is not the void
    label which [incremental_update] accepts: only labels of at least
    [class_count] are rejected.  Its flat index is negative, names a
    cell counted from the end of the matrix, and that cell changes. *)
Theorem negative_label_is_counted :
  ∃ (s : Confusion) (gt pred : ndarray) (x i : Z) (k : nat),
    matrix_ok s ∧ shape gt = shape pred ∧
    x ∈ data gt ∧ x < 0 ∧ x ≠ void_label s ∧
    outcome (incremental_update gt pred allow_void_prediction_default
               update_finished_default s) = Ok tt ∧
    i ∈ pairs_of (void_label s) (class_count s)
          allow_void_prediction_default gt pred ∧
    i < 0 ∧ adjust_index (length (confusion s)) i = Some k ∧
    confusion (after (incremental_update gt pred
                        allow_void_prediction_default
                        update_finished_default s)) !! k
    ≠ confusion s !! k.
Proof.
  exists fresh2, (array1d [-2]), (array1d [0]), (-2), (-4), 0%nat.
  split.
  { split; [reflexivity|].
    assert (confusion fresh2 = [0; 0; 0; 0]) as -> by reflexivity.
    repeat (constructor; [unfold is_int64, in_range; lia|]).
    constructor. }
  split; [reflexivity|].
  split; [simpl; by left|].
  split; [lia|]. split; [vm_compute; discriminate|].
  split; [reflexivity|].
  split; [vm_compute; by left|].
  split; [lia|]. split; [reflexivity|].
  vm_compute. discriminate.
Qed.

(** ** Inputs without elements *)

(** C10.  For zero-element inputs of one shape the maximum of the
    ground truth has no value: [incremental_update] raises the
    [ValueError] of [np.max] and leaves the object, and so its matrix,
    as it was. *)
Theorem update_of_empty_raises s gt pred allow uf :
  shape gt = shape pred → data gt = [] → data pred = [] →
  incremental_update gt pred allow uf s = (Raise MaxOfEmpty, s) ∧
  class_of MaxOfEmpty = ValueError.
Proof.
  intros Hsh Hgt Hpred. split; [|done].
  rewrite incremental_update_run.
  unfold shape_eqb. rewrite bool_decide_eq_true_2 by done. simpl.
  unfold contains. rewrite Hpred. simpl. rewrite andb_false_r.
  by rewrite (proj2 (amax_None gt) Hgt).
Qed.

Lemma update_of_empty_raises_witness :
  incremental_update (array1d []) (array1d []) false true finished2
  = (Raise MaxOfEmpty, finished2) ∧ class_of MaxOfEmpty = ValueError.
Proof. apply update_of_empty_raises; reflexivity. Defined.

(** * Further properties of the code *)

(** ** Construction and [reset] *)

Lemma str_inj i j : str i = str j → i = j.
Proof.
  unfold str. intros Heq.
  apply Unsigned.to_uint_inj.
  assert (Some (Nat.to_uint i) = Some (Nat.to_uint j)) as [= ->]; [|done].
  by rewrite <- !NilEmpty.usu, Heq.
Qed.

Lemma replicate_zero_is_int64 n : Forall is_int64 (replicate n 0).
Proof.
  apply Forall_replicate. unfold is_int64, in_range.
  change (2 ^ (64 - 1)) with 9223372036854775808. lia.
Qed.

Lemma replicate_zero_nonneg n : Forall (λ c, 0 ≤ c) (replicate n 0).
Proof. by apply Forall_replicate. Qed.

Lemma reset_fields s :
  let s' := after (reset s) in
  label_names s' = label_names s ∧ void_label s' = void_label s ∧
  class_count s' = class_count s ∧
  confusion s' = replicate (class_count s * class_count s) 0 ∧
  finished_computation s' = false ∧ matrix_ok s' ∧ counts_ok s'.
Proof.
  simpl. repeat split; simpl.
  - by rewrite length_replicate.
  - apply replicate_zero_is_int64.
  - by rewrite length_replicate.
  - apply replicate_zero_nonneg.
  - rewrite zsum_replicate_zero. done.
Qed.

Lemma init_inv names void label_count s :
  __init__ names void label_count = Ok s →
  void < 0 ∧ void_label s = void ∧
  class_count s = length (label_names s) ∧
  (∀ l, names = Some l → class_count s = length l) ∧
  (∀ n, names = None → label_count = Some n →
        class_count s = n ∧ label_names s = map str (seq 0 n)) ∧
  confusion s = replicate (class_count s * class_count s) 0 ∧
  confusion_normalized_row s = None ∧ confusion_normalized_col s = None ∧
  gt_sum_per_class s = None ∧ sum_per_class s = None ∧
  finished_computation s = false.
Proof.
  unfold __init__.
  destruct names as [l|]; [|destruct label_count as [n|]; [|done]];
    (destruct (0 <=? void) eqn:Hv; [done|]); apply Z.leb_gt in Hv;
    intros [= <-]; simpl; repeat split; try done;
    intros; simplify_eq/=; by rewrite ?length_map, ?length_seq.
Qed.

(** ** Any call keeps the object well formed *)

Lemma flat_setitem_ok idx : ∀ (a vals b : list Z),
  flat_setitem a idx vals = Some b →
  Forall is_int64 vals →
  length b = length a ∧ (Forall is_int64 a → Forall is_int64 b).
Proof.
  induction idx as [|i idx IH]; intros a vals b Hset Hvals; simpl in Hset.
  - by simplify_eq.
  - destruct vals as [|v vals]; [by simplify_eq|].
    destruct (adjust_index (length a) i) as [k|]; [|done].
    apply Forall_cons in Hvals as [Hv Hvals].
    destruct (IH _ _ _ Hset Hvals) as [Hlen Hall].
    rewrite length_insert in Hlen. split; [done|].
    intros Ha. apply Hall. by apply Forall_insert.
Qed.

Lemma accumulate_cases gt pred allow s :
  accumulate gt pred allow s = (Raise FlatIndexOutOfBounds, s) ∨
  ∃ a, accumulate gt pred allow s = (Ok tt, updated s a) ∧
       length a = length (confusion s) ∧
       (Forall is_int64 (confusion s) → Forall is_int64 a).
Proof.
  unfold accumulate, flat_iadd, set_finished_computation, mbind, M_bind, get,
    put, otherwise, raise, mret, M_ret.
  destruct (unique_counts _) as [pairs pair_counts].
  destruct (flat_getitem _ _) as [old|]; [|by left].
  destruct (flat_setitem _ _ _) as [a|] eqn:Hset; [|by left].
  right. exists a. split; [done|]. eapply flat_setitem_ok; [exact Hset|].
  apply Forall_forall. intros x Hx.
  apply elem_of_zip_with in Hx as (v & c & -> & _).
  apply to_int64_is_int64.
Qed.

Lemma incremental_update_cases gt pred allow uf s :
  (∃ e, incremental_update gt pred allow uf s = (Raise e, s)) ∨
  ∃ a, incremental_update gt pred allow uf s = (Ok tt, updated s a) ∧
       length a = length (confusion s) ∧
       (Forall is_int64 (confusion s) → Forall is_int64 a).
Proof.
  rewrite incremental_update_run.
  repeat match goal with
         | |- context [if ?c then _ else _] => destruct c; [left; by eexists|]
         | |- context [match amax ?a with _ => _ end] =>
             destruct (amax a); [|left; by eexists]
         end.
  destruct (accumulate_cases gt pred allow s) as [->|Hok]; [left; by eexists|].
  by right.
Qed.

Lemma run_keeps c s :
  object_ok s →
  let s' := after (run c s) in
  object_ok s' ∧ label_names s' = label_names s ∧
  void_label s' = void_label s ∧ class_count s' = class_count s.
Proof.
  intros Hok. pose proof Hok as (Hv & Hc & Hm & Hup).
  assert (object_ok (after (finish s))) as Hfin.
  { split; [done|]. split; [done|]. split; [exact Hm|]. intros _. reflexivity. }
  destruct c as [| |gt pred allow uf|]; simpl.
  - destruct (reset_fields s) as (_ & _ & _ & _ & _ & Hm' & _).
    split; [|done]. split; [done|]. split; [done|]. split; [exact Hm'|]. done.
  - by split.
  - destruct (incremental_update_cases gt pred allow uf s)
      as [(e & ->)|(a & -> & Hlen & Hall)].
    + by split.
    + split; [|done]. clear Hok. split; [done|]. split; [done|]. split; [|done].
      destruct Hm as [Hl Hi]. split; simpl; [by rewrite Hlen | by apply Hall].
  - unfold finish_if_needed, mbind, M_bind, get.
    destruct (finished_computation s) eqn:Hf; simpl.
    + by split.
    + unfold mret, M_ret. by split.
Qed.

Lemma init_object_ok names void label_count s :
  __init__ names void label_count = Ok s → object_ok s.
Proof.
  intros Hinit.
  destruct (init_inv _ _ _ _ Hinit)
    as (Hv & Hvl & Hc & _ & _ & Ha & _ & _ & _ & _ & Hf).
  repeat split.
  - lia.
  - done.
  - by rewrite Ha, length_replicate.
  - rewrite Ha. apply replicate_zero_is_int64.
  - by rewrite Hf.
Qed.

Lemma run_all_keeps cs : ∀ s,
  object_ok s →
  let s' := run_all cs s in
  object_ok s' ∧ label_names s' = label_names s ∧
  void_label s' = void_label s ∧ class_count s' = class_count s.
Proof.
  induction cs as [|c cs IH]; intros s Hok; simpl; [done|].
  destruct (run_keeps c s Hok) as (Hok' & Hn & Hv & Hc).
  destruct (IH _ Hok') as (Hok'' & Hn' & Hv' & Hc'). simpl in *.
  unfold run_all in *. simpl.
  split; [exact Hok''|]. rewrite Hn', Hv', Hc'. done.
Qed.

(** X1.  The constructor raises a [ValueError] in two cases and in no
    other: neither names nor a count was given (this is looked at
    first, whatever the void label), or the void label is not negative.
    Otherwise it returns an object with that void label, one class per
    name (or [label_count] classes), a [class_count x class_count]
    matrix of zeros that is a matrix of counts, and the finished flag
    unset. *)
Theorem init_outcome names void label_count :
  match __init__ names void label_count with
  | Raise e =>
      class_of e = ValueError ∧
      (e = NothingSpecified ∧ names = None ∧ label_count = None ∨
       e = VoidLabelNotNegative ∧ 0 ≤ void ∧
       (names ≠ None ∨ label_count ≠ None))
  | Ok s =>
      void < 0 ∧ (names ≠ None ∨ label_count ≠ None) ∧
      void_label s = void ∧
      class_count s = length (label_names s) ∧
      (∀ l, names = Some l → class_count s = length l) ∧
      (∀ n, names = None → label_count = Some n → class_count s = n) ∧
      confusion s = replicate (class_count s * class_count s) 0 ∧
      matrix_ok s ∧ counts_ok s ∧ finished_computation s = false
  end.
Proof.
  destruct (__init__ names void label_count) as [s|e] eqn:Hinit.
  - destruct (init_inv _ _ _ _ Hinit)
      as (Hv & Hvl & Hc & Hl & Hn & Ha & _ & _ & _ & _ & Hf).
    split; [done|]. split.
    { destruct names; [by left|]. destruct label_count; [by right|done]. }
    split; [done|]. split; [done|]. split; [done|].
    split; [intros n H1 H2; by destruct (Hn n H1 H2)|].
    split; [done|]. split; [|split; [|done]].
    + split; rewrite Ha; [by rewrite length_replicate|].
      apply replicate_zero_is_int64.
    + split; [|split]; rewrite Ha.
      * by rewrite length_replicate.
      * apply replicate_zero_nonneg.
      * by rewrite zsum_replicate_zero.
  - unfold __init__ in Hinit.
    destruct names as [l|]; [|destruct label_count as [n|]];
      try (destruct (0 <=? void) eqn:Hv; [|done]; apply Z.leb_le in Hv);
      simplify_eq; split; try done.
    + right. split; [done|]. split; [done|]. by left.
    + right. split; [done|]. split; [done|]. by right.
    + by left.
Qed.

(** X2.  Constructed from a count [n] alone, the object has [n]
    classes, class [i] is named by the decimal numeral of [i], and no
    two classes share a name. *)
Theorem default_label_names_are_distinct void n s :
  __init__ None void (Some n) = Ok s →
  class_count s = n ∧ NoDup (label_names s) ∧
  ∀ i, (i < n)%nat → label_names s !! i = Some (str i).
Proof.
  intros Hinit.
  destruct (init_inv _ _ _ _ Hinit) as (_ & _ & _ & _ & Hn & _).
  destruct (Hn n eq_refl eq_refl) as [Hc ->]. split; [done|]. split.
  - change (map str (seq 0 n)) with (str <$> seq 0 n).
    apply NoDup_fmap_2_strong; [|apply NoDup_seq].
    intros i j _ _. apply str_inj.
  - intros i Hi. change (map str (seq 0 n)) with (str <$> seq 0 n).
    by rewrite list_lookup_fmap, lookup_seq_lt.
Qed.

Lemma default_label_names_are_distinct_witness :
  class_count fresh2 = 2%nat ∧ NoDup (label_names fresh2) ∧
  ∀ i, (i < 2)%nat → label_names fresh2 !! i = Some (str i).
Proof.
  apply (default_label_names_are_distinct (-1) 2 fresh2). reflexivity.
Defined.

Lemma init_reset names void label_count s0 :
  __init__ names void label_count = Ok s0 → after (reset s0) = s0.
Proof.
  unfold __init__.
  destruct names as [l|]; [|destruct label_count as [n|]; [|done]];
    (destruct (0 <=? void); [done|]); by intros [= <-].
Qed.


Lemma run_all_keeps_sums cs : ∀ s,
  Forall (λ c, is_scoring c = false) cs →
  gt_sum_per_class (run_all cs s) = gt_sum_per_class s ∧
  sum_per_class (run_all cs s) = sum_per_class s.
Proof.
  induction cs as [|c cs IH]; intros s Hcs; [done|].
  apply Forall_cons in Hcs as [Hc Hcs].
  destruct (IH (after (run c s)) Hcs) as [Hg Hp].
  unfold run_all in *. simpl. rewrite Hg, Hp.
  destruct c as [| |gt pred allow uf|]; try done.
  simpl.
  by destruct (incremental_update_cases gt pred allow uf s)
    as [(e & ->)|(a & -> & _)].
Qed.

(** X3.  [reset] on an object that was constructed and then used in
    any way gives the object as it was constructed in every field but
    [gt_sum_per_class] and [sum_per_class]: [reset] does not assign
    these two, and they stay as the last [finish] left them.  When no
    call has computed scores, [reset] gives exactly the object as it
    was constructed; after a [finish] it does not. *)
Theorem reset_gives_fresh_object names void label_count s0 cs :
  __init__ names void label_count = Ok s0 →
  let s := run_all cs s0 in
  after (reset s)
  = {| label_names := label_names s0;
       void_label := void_label s0;
       class_count := class_count s0;
       confusion := confusion s0;
       confusion_normalized_row := confusion_normalized_row s0;
       confusion_normalized_col := confusion_normalized_col s0;
       global_score := global_score s0;
       avg_score := avg_score s0;
       avg_iou_score := avg_iou_score s0;
       gt_sum_per_class := gt_sum_per_class s;
       sum_per_class := sum_per_class s;
       finished_computation := finished_computation s0 |} ∧
  (Forall (λ c, is_scoring c = false) cs → after (reset s) = s0) ∧
  gt_sum_per_class (after (reset (after (finish s))))
  ≠ gt_sum_per_class s0.
Proof.
  intros Hinit. cbv zeta.
  pose proof (init_reset _ _ _ _ Hinit) as Hs0.
  destruct (run_all_keeps cs s0 (init_object_ok _ _ _ _ Hinit))
    as (_ & Hn & Hv & Hc). cbv zeta in *.
  assert (after (reset (run_all cs s0))
          = {| label_names := label_names s0;
               void_label := void_label s0;
               class_count := class_count s0;
               confusion := confusion s0;
               confusion_normalized_row := confusion_normalized_row s0;
               confusion_normalized_col := confusion_normalized_col s0;
               global_score := global_score s0;
               avg_score := avg_score s0;
               avg_iou_score := avg_iou_score s0;
               gt_sum_per_class := gt_sum_per_class (run_all cs s0);
               sum_per_class := sum_per_class (run_all cs s0);
               finished_computation := finished_computation s0 |}) as Heq.
  { assert (confusion s0 = replicate (class_count s0 * class_count s0) 0 ∧
            confusion_normalized_row s0 = None ∧
            confusion_normalized_col s0 = None ∧
            global_score s0 = of_int 0 ∧ avg_score s0 = of_int 0 ∧
            avg_iou_score s0 = of_int 0 ∧ finished_computation s0 = false)
      as (-> & -> & -> & -> & -> & -> & ->) by (by rewrite <- Hs0).
    unfold reset, after, mbind, M_bind, get, put.
    simpl. by rewrite Hn, Hv, Hc. }
  split; [exact Heq|]. split.
  - intros Hcs. rewrite Heq.
    destruct (run_all_keeps_sums cs s0 Hcs) as [-> ->]. by destruct s0.
  - destruct (init_inv _ _ _ _ Hinit) as (_ & _ & _ & _ & _ & _ & _ & _ & -> & _).
    done.
Qed.

Lemma reset_gives_fresh_object_witness :
  let cs := [IncrementalUpdate (array1d [0; 1]) (array1d [1; 1]) false true;
             Finish] in
  let s := run_all cs fresh2 in
  after (reset s)
  = {| label_names := label_names fresh2;
       void_label := void_label fresh2;
       class_count := class_count fresh2;
       confusion := confusion fresh2;
       confusion_normalized_row := confusion_normalized_row fresh2;
       confusion_normalized_col := confusion_normalized_col fresh2;
       global_score := global_score fresh2;
       avg_score := avg_score fresh2;
       avg_iou_score := avg_iou_score fresh2;
       gt_sum_per_class := gt_sum_per_class s;
       sum_per_class := sum_per_class s;
       finished_computation := finished_computation fresh2 |} ∧
  (Forall (λ c, is_scoring c = false) cs → after (reset s) = fresh2) ∧
  gt_sum_per_class (after (reset (after (finish s))))
  ≠ gt_sum_per_class fresh2.
Proof.
  apply (reset_gives_fresh_object None (-1) (Some 2%nat) fresh2).
  reflexivity.
Defined.

(** X4.  Whatever calls are made on an object that was constructed,
    with whatever arguments and whether they raise or not: the names,
    the void label and the class count stay; the void label is
    negative; there is one class per name; the matrix is a
    [class_count x class_count] array of int64 cells; and when the
    finished flag is set, every computed field is what [finish]
    computes from the matrix as it is now. *)
Theorem constructed_object_stays_well_formed names void label_count s0 cs :
  __init__ names void label_count = Ok s0 →
  let s := run_all cs s0 in
  label_names s = label_names s0 ∧ void_label s = void_label s0 ∧
  class_count s = class_count s0 ∧
  void_label s < 0 ∧ class_count s = length (label_names s) ∧
  matrix_ok s ∧
  (finished_computation s = true → up_to_date s).
Proof.
  intros Hinit.
  destruct (run_all_keeps cs s0 (init_object_ok _ _ _ _ Hinit))
    as ((Hv' & Hc' & Hm & Hup) & Hn & Hv & Hc).
  simpl in *. done.
Qed.

Lemma constructed_object_stays_well_formed_witness :
  let s := run_all [IncrementalUpdate (array1d [0; 1]) (array1d [1; 1])
                      false true;
                    Finish;
                    IncrementalUpdate (array1d [0; 5]) (array1d [1; 1])
                      false true] fresh2 in
  label_names s = label_names fresh2 ∧ void_label s = void_label fresh2 ∧
  class_count s = class_count fresh2 ∧
  void_label s < 0 ∧ class_count s = length (label_names s) ∧
  matrix_ok s ∧
  (finished_computation s = true → up_to_date s).
Proof.
  apply (constructed_object_stays_well_formed None (-1) (Some 2%nat) fresh2).
  reflexivity.
Defined.

(** X5.  On such an object the guard of [plot] and
    [print_confusion_matrix] does what an unconditional [finish] does:
    it raises nothing, leaves the matrix, and the scores and normalized
    matrices it leaves are those of the matrix as it is now, never
    those of a matrix that was updated since. *)
Theorem display_uses_current_scores names void label_count s0 cs :
  __init__ names void label_count = Ok s0 →
  let s := run_all cs s0 in
  finish_if_needed s = finish s ∧
  outcome (finish_if_needed s) = Ok tt ∧
  confusion (after (finish_if_needed s)) = confusion s ∧
  up_to_date (after (finish_if_needed s)).
Proof.
  intros Hinit.
  destruct (run_all_keeps cs s0 (init_object_ok _ _ _ _ Hinit))
    as ((_ & _ & _ & Hup) & _).
  cbv zeta in *.
  assert (finish_if_needed (run_all cs s0) = finish (run_all cs s0)) as ->.
  { unfold finish_if_needed, mbind, M_bind, get.
    destruct (finished_computation (run_all cs s0)) eqn:Hf; simpl; [|done].
    specialize (Hup eq_refl). unfold up_to_date in Hup.
    transitivity (Ok tt, after (finish (run_all cs s0)));
      [by rewrite Hup | reflexivity]. }
  done.
Qed.

Lemma display_uses_current_scores_witness :
  let s := run_all [IncrementalUpdate (array1d [0; 1]) (array1d [1; 1])
                      false true;
                    Finish;
                    IncrementalUpdate (array1d [0; 0]) (array1d [1; 1])
                      false true] fresh2 in
  finish_if_needed s = finish s ∧
  outcome (finish_if_needed s) = Ok tt ∧
  confusion (after (finish_if_needed s)) = confusion s ∧
  up_to_date (after (finish_if_needed s)).
Proof.
  apply (display_uses_current_scores None (-1) (Some 2%nat) fresh2).
  reflexivity.
Defined.

(** ** What an update counts *)

Lemma counts_matrix_ok s : counts_ok s → matrix_ok s.
Proof.
  intros (Hlen & Ha & Htot). split; [done|].
  apply Forall_lookup. intros k c Hk.
  pose proof (zsum_lookup_le _ _ _ Ha Hk).
  unfold is_int64, in_range. change (2 ^ (64 - 1)) with (2 ^ 63). lia.
Qed.

Lemma occurrences_app k l1 l2 :
  occurrences k (l1 ++ l2) = occurrences k l1 + occurrences k l2.
Proof. unfold occurrences. rewrite List.filter_app, length_app. lia. Qed.

Lemma count_pairs_cons i j x y g p :
  count_pairs i j (x :: g) (y :: p)
  = (if (x =? i) && (y =? j) then 1 else 0) + count_pairs i j g p.
Proof.
  unfold count_pairs. simpl. destruct ((x =? i) && (y =? j)); simpl; lia.
Qed.

Lemma count_non_void_cons void allow x y g p :
  count_non_void void allow (x :: g) (y :: p)
  = (if negb (x =? void) && (if allow then negb (y =? void) else true)
     then 1 else 0)
    + count_non_void void allow g p.
Proof.
  unfold count_non_void. simpl.
  destruct (negb (x =? void) && _); simpl; lia.
Qed.

Lemma valid_label_is_int32 s b x :
  labels_ok s → valid_label s b x → to_int32 x = x.
Proof.
  intros Hok [Hx|[_ ->]]; apply to_int32_id.
  - by eapply valid_class_label_is_int32.
  - apply Hok.
Qed.

Lemma counted_element_plain s allow x y :
  labels_ok s → valid_label s true x → valid_label s allow y →
  counted_element (void_label s) allow x y
  = negb (x =? void_label s)
    && (if allow then negb (y =? void_label s) else true).
Proof.
  intros Hok Hx Hy. unfold counted_element.
  by rewrite (valid_label_is_int32 s true x), (valid_label_is_int32 s allow y).
Qed.

Lemma occurrences_element s allow (i j : nat) x y :
  labels_ok s → (i < class_count s)%nat → (j < class_count s)%nat →
  valid_label s true x → valid_label s allow y →
  occurrences (i * class_count s + j)
    (if counted_element (void_label s) allow x y
     then [flat_index (class_count s) x y] else [])
  = if (x =? Z.of_nat i) && (y =? Z.of_nat j) then 1 else 0.
Proof.
  intros Hok Hi Hj Hx Hy.
  destruct (counted_element (void_label s) allow x y) eqn:Hc.
  - destruct (counted_element_valid s allow x y Hok Hx Hy Hc) as [Hxr Hyr].
    destruct (flat_index_valid s x y Hok Hxr Hyr) as [-> _].
    rewrite occurrences_cons. change (occurrences _ []) with 0.
    destruct (Z.eqb_spec x (Z.of_nat i)) as [->|Hne]; simpl.
    + destruct (Z.eqb_spec y (Z.of_nat j)) as [->|Hne]; simpl.
      * rewrite decide_True; [done | lia].
      * rewrite decide_False; [done | lia].
    + rewrite decide_False; [done | nia].
  - rewrite (counted_element_plain s allow x y) in Hc by done.
    destruct Hok as (Hneg & _).
    destruct (Z.eqb_spec x (Z.of_nat i)) as [->|Hne]; [|done].
    destruct (Z.eqb_spec y (Z.of_nat j)) as [->|Hne]; [|done].
    exfalso.
    destruct (Z.eqb_spec (Z.of_nat i) (void_label s)); [lia|].
    destruct allow; [|done].
    destruct (Z.eqb_spec (Z.of_nat j) (void_label s)); [lia|]. done.
Qed.

Lemma occurrences_pairs s allow (i j : nat) g : ∀ p,
  labels_ok s → (i < class_count s)%nat → (j < class_count s)%nat →
  Forall (valid_label s true) g → Forall (valid_label s allow) p →
  occurrences (i * class_count s + j)
    (pairs_of (void_label s) (class_count s) allow (array1d g) (array1d p))
  = count_pairs (Z.of_nat i) (Z.of_nat j) g p.
Proof.
  induction g as [|x g IH]; intros [|y p] Hok Hi Hj Hg Hp.
  - by rewrite pairs_of_nil_l.
  - by rewrite pairs_of_nil_l.
  - by rewrite pairs_of_nil_r.
  - apply Forall_cons in Hg as [Hx Hg]. apply Forall_cons in Hp as [Hy Hp].
    rewrite pairs_of_cons, occurrences_app, count_pairs_cons, IH by done.
    by rewrite occurrences_element.
Qed.

Lemma cell_counted n (a l : list Z) (i j : nat) :
  (i * n + j < length a)%nat →
  cell n (counted a l) i j
  = to_int64 (cell n a i j + occurrences (i * n + j) l).
Proof.
  intros Hlt. unfold cell, counted. rewrite list_lookup_imap.
  destruct (lookup_lt_is_Some_2 a _ Hlt) as [c ->]. done.
Qed.

(** X6.  What an accepted update counts.  For a batch of valid labels
    that holds elements, on an object whose scores may be updated, the
    call raises nothing, and the cell in row [i] and column [j] grows
    by the number of elements whose ground truth is [i] and whose
    prediction is [j] (the sum is an int64 sum). *)
Theorem update_counts_each_cell s gt pred allow uf (i j : nat) :
  matrix_ok s → labels_ok s → valid_batch s allow gt pred →
  data gt ≠ [] → finished_computation s && negb uf = false →
  (i < class_count s)%nat → (j < class_count s)%nat →
  let r := incremental_update gt pred allow uf s in
  outcome r = Ok tt ∧
  cell (class_count s) (confusion (after r)) i j
  = to_int64 (cell (class_count s) (confusion s) i j
              + count_pairs (Z.of_nat i) (Z.of_nat j) (data gt) (data pred)).
Proof.
  intros Hm Hok Hv Hne Hst Hi Hj.
  pose proof (valid_batch_length _ _ _ _ Hv) as Hl.
  destruct Hv as (Hsh & _ & _ & Hg & Hp). cbv zeta.
  rewrite (incremental_update_valid s gt pred allow uf) by done.
  rewrite bool_decide_eq_false_2, Hst by done. split; [done|].
  unfold after. simpl.
  rewrite cell_counted by (destruct Hm as [-> _]; nia).
  by rewrite pairs_of_data, occurrences_pairs.
Qed.

Lemma update_counts_each_cell_witness :
  let r := incremental_update (array1d [0; 0; 1; 1]) (array1d [0; 1; 1; 1])
             false true fresh2 in
  outcome r = Ok tt ∧
  cell (class_count fresh2) (confusion (after r)) 0 1
  = to_int64 (cell (class_count fresh2) (confusion fresh2) 0 1
              + count_pairs (Z.of_nat 0) (Z.of_nat 1)
                  (data (array1d [0; 0; 1; 1])) (data (array1d [0; 1; 1; 1]))).
Proof.
  destruct fresh2_ok as [Hm Hl]. destruct fresh2_fields as (Hcc & _).
  apply (update_counts_each_cell fresh2 (array1d [0; 0; 1; 1])
           (array1d [0; 1; 1; 1]) false true 0 1);
    [exact Hm | exact Hl | | discriminate | reflexivity
     | rewrite Hcc; lia | rewrite Hcc; lia].
  apply valid_batch_two_classes; [exact Hcc | reflexivity | |];
    repeat (constructor; [lia|]); constructor.
Defined.

(** ** The total of the matrix *)

Lemma zsum_indicator_in_range x n :
  0 ≤ x < Z.of_nat n →
  zsum (map (λ k, if decide (Z.of_nat k = x) then 1 else 0) (seq 0 n)) = 1.
Proof.
  intros Hx.
  rewrite (zsum_map_ext _
             (λ k, if decide (k = Z.to_nat x) then 1 else (λ _, 0) k)).
  - rewrite zsum_replace_one by lia. rewrite zsum_map_zero. lia.
  - intros k _. destruct (decide (Z.of_nat k = x)), (decide (k = Z.to_nat x));
      try done; lia.
Qed.

Lemma zsum_occurrences_in_range l n :
  Forall (λ i, 0 ≤ i < Z.of_nat n) l →
  zsum (map (λ k, occurrences k l) (seq 0 n)) = Z.of_nat (length l).
Proof.
  induction 1 as [|x l Hx _ IH].
  - rewrite (zsum_map_ext _ (λ _, 0)) by done. by rewrite zsum_map_zero.
  - rewrite (zsum_map_ext _
               (λ k, (if decide (Z.of_nat k = x) then 1 else 0)
                     + occurrences k l))
      by (intros; apply occurrences_cons).
    rewrite zsum_map_add, zsum_indicator_in_range, IH by done.
    simpl length. lia.
Qed.

Lemma pairs_of_count s allow g : ∀ p,
  labels_ok s →
  Forall (valid_label s true) g → Forall (valid_label s allow) p →
  Z.of_nat (length (pairs_of (void_label s) (class_count s) allow
                      (array1d g) (array1d p)))
  = count_non_void (void_label s) allow g p.
Proof.
  induction g as [|x g IH]; intros [|y p] Hok Hg Hp.
  - by rewrite pairs_of_nil_l.
  - by rewrite pairs_of_nil_l.
  - by rewrite pairs_of_nil_r.
  - apply Forall_cons in Hg as [Hx Hg]. apply Forall_cons in Hp as [Hy Hp].
    rewrite pairs_of_cons, length_app, count_non_void_cons, Nat2Z.inj_add,
      IH by done.
    rewrite <- (counted_element_plain s allow x y) by done.
    by destruct (counted_element (void_label s) allow x y).
Qed.

(** X7.  For a batch of valid labels that is accepted, on a matrix of
    counts that the batch cannot overflow, the total of the matrix
    grows by the number of elements that are not void: those whose
    ground truth is not the void label and, when void predictions are
    allowed, whose prediction is not the void label either. *)
Theorem update_adds_the_non_void_elements s gt pred allow uf :
  labels_ok s → counts_ok s → valid_batch s allow gt pred →
  data gt ≠ [] → finished_computation s && negb uf = false →
  zsum (confusion s) + Z.of_nat (length (data gt)) < 2 ^ 63 →
  zsum (confusion (after (incremental_update gt pred allow uf s)))
  = zsum (confusion s)
    + count_non_void (void_label s) allow (data gt) (data pred).
Proof.
  intros Hok Hc Hv Hne Hst Hfit.
  pose proof (counts_matrix_ok s Hc) as Hm.
  pose proof (valid_batch_length _ _ _ _ Hv) as Hl.
  destruct Hv as (Hsh & _ & _ & Hg & Hp).
  rewrite (incremental_update_valid s gt pred allow uf) by done.
  rewrite bool_decide_eq_false_2, Hst by done. unfold after. simpl.
  destruct Hc as (Hlen & Ha & _).
  pose proof (pairs_of_length (void_label s) (class_count s) allow
                (data gt) (data pred)) as Hpl.
  rewrite <- pairs_of_data in Hpl.
  destruct (counted_counts (confusion s)
              (pairs_of (void_label s) (class_count s) allow gt pred) Ha)
    as (-> & _); [lia|].
  rewrite zsum_imap_add, zsum_occurrences_in_range.
  - by rewrite pairs_of_data, pairs_of_count.
  - rewrite Hlen, pairs_of_data. by apply pairs_of_valid.
Qed.

Lemma update_adds_the_non_void_elements_witness :
  zsum (confusion (after (incremental_update (array1d [0; -1; 1; 1])
                            (array1d [0; 1; 1; 1]) false true fresh2)))
  = zsum (confusion fresh2)
    + count_non_void (void_label fresh2) false
        (data (array1d [0; -1; 1; 1])) (data (array1d [0; 1; 1; 1])).
Proof.
  destruct fresh2_fields as (Hcc & Hv & Ha & _).
  assert (Forall (λ c, 0 ≤ c < 1000) [0; 0; 0; 0]) as Hall
    by (repeat (constructor; [lia|]); constructor).
  destruct (small_object_ok fresh2 _ Hcc Hv Ha eq_refl Hall) as (_ & Hl & Hc).
  apply (update_adds_the_non_void_elements fresh2 (array1d [0; -1; 1; 1])
           (array1d [0; 1; 1; 1]) false true);
    [exact Hl | exact Hc | | discriminate | reflexivity | ].
  - unfold valid_batch, valid_label, ndarray_ok. rewrite Hcc, Hv.
    repeat split; try reflexivity.
    + repeat (constructor; [simpl; lia|]). constructor.
    + repeat (constructor; [simpl; lia|]). constructor.
  - rewrite Ha. simpl. lia.
Defined.

(** ** What an update leaves *)

(** X8.  An update that raises nothing writes the matrix and clears the
    finished flag, and nothing else: the matrix keeps its size, and the
    scores and the normalized matrices stay what they were, now out of
    date, until [finish] is called again. *)
Theorem accepted_update_writes_matrix_and_flag s gt pred allow uf :
  outcome (incremental_update gt pred allow uf s) = Ok tt →
  ∃ a, after (incremental_update gt pred allow uf s) = updated s a ∧
       length a = length (confusion s) ∧
       finished_computation (updated s a) = false ∧
       global_score (updated s a) = global_score s ∧
       avg_score (updated s a) = avg_score s ∧
       avg_iou_score (updated s a) = avg_iou_score s ∧
       confusion_normalized_row (updated s a) = confusion_normalized_row s ∧
       confusion_normalized_col (updated s a) = confusion_normalized_col s.
Proof.
  destruct (incremental_update_cases gt pred allow uf s)
    as [(e & ->)|(a & -> & Hlen & _)]; [done|].
  intros _. by exists a.
Qed.

Lemma accepted_update_writes_matrix_and_flag_witness :
  ∃ a, after (incremental_update (array1d [0; -2]) (array1d [1; 1]) false true
                finished2)
       = updated finished2 a ∧
       length a = length (confusion finished2) ∧
       finished_computation (updated finished2 a) = false ∧
       global_score (updated finished2 a) = global_score finished2 ∧
       avg_score (updated finished2 a) = avg_score finished2 ∧
       avg_iou_score (updated finished2 a) = avg_iou_score finished2 ∧
       confusion_normalized_row (updated finished2 a)
       = confusion_normalized_row finished2 ∧
       confusion_normalized_col (updated finished2 a)
       = confusion_normalized_col finished2.
Proof.
  apply accepted_update_writes_matrix_and_flag. vm_compute. reflexivity.
Defined.

(** X9.  Whatever the arguments and whatever the exception, also the
    [ValueError] of [np.max] and the [IndexError] of the flat view: an
    update that raises leaves the object exactly as it was. *)
Theorem raising_update_leaves_object s gt pred allow uf e :
  outcome (incremental_update gt pred allow uf s) = Raise e →
  incremental_update gt pred allow uf s = (Raise e, s).
Proof.
  destruct (incremental_update_cases gt pred allow uf s)
    as [(e' & ->)|(a & -> & _)]; [|done].
  by intros [= ->].
Qed.

Lemma raising_update_leaves_object_witness :
  incremental_update (array1d [0; -3]) (array1d [1; 1]) false true finished2
  = (Raise FlatIndexOutOfBounds, finished2).
Proof.
  apply raising_update_leaves_object. vm_compute. reflexivity.
Defined.

(** ** Labels below the matrix *)

Lemma flat_getitem_None (a : list Z) idx i :
  i ∈ idx → adjust_index (length a) i = None → flat_getitem a idx = None.
Proof.
  induction idx as [|k idx IH]; intros Hin Hi.
  - by apply elem_of_nil in Hin.
  - simpl. apply elem_of_cons in Hin as [<-|Hin].
    + by rewrite Hi.
    + rewrite IH by done. destruct (adjust_index _ k); [|done].
      by destruct (a !! _).
Qed.

Lemma pairs_of_elem void n allow g : ∀ p k x y,
  g !! k = Some x → p !! k = Some y →
  counted_element void allow x y = true →
  flat_index n x y ∈ pairs_of void n allow (array1d g) (array1d p).
Proof.
  induction g as [|x' g IH]; intros [|y' p] k x y Hg Hp Hc; try done.
  rewrite pairs_of_cons. destruct k as [|k]; simpl in *.
  - simplify_eq. rewrite Hc. apply elem_of_app. left. by left.
  - apply elem_of_app. right. by eapply IH.
Qed.

Lemma accumulate_index_error gt pred allow s i :
  i ∈ pairs_of (void_label s) (class_count s) allow gt pred →
  adjust_index (length (confusion s)) i = None →
  accumulate gt pred allow s = (Raise FlatIndexOutOfBounds, s).
Proof.
  intros Hin Hi. rewrite accumulate_run. unfold unique_counts. cbv zeta.
  unfold flat_iadd, mbind, M_bind, get, otherwise, raise.
  rewrite (flat_getitem_None _ _ i); [done | | done].
  by apply unique_keys_elem.
Qed.

(** X10.  A ground-truth label below [-class_count] that is not the
    void label passes every check (only labels of at least
    [class_count] are rejected there), and its flat index falls before
    the first cell of the matrix: the update ends in the [IndexError]
    of the flat view, and the object is as it was.  (The labels and the
    product are taken within int32, the type they are computed in.) *)
Theorem label_below_the_matrix_raises_IndexError s gt pred allow uf x :
  labels_ok s →
  length (confusion s) = (class_count s * class_count s)%nat →
  shape gt = shape pred → length (data gt) = length (data pred) →
  Forall (λ g, g < Z.of_nat (class_count s)) (data gt) →
  Forall (λ p, 0 ≤ p < Z.of_nat (class_count s)) (data pred) →
  finished_computation s && negb uf = false →
  x ∈ data gt → x ≠ void_label s →
  x < - Z.of_nat (class_count s) →
  - 2 ^ 31 ≤ x * Z.of_nat (class_count s) →
  incremental_update gt pred allow uf s = (Raise FlatIndexOutOfBounds, s) ∧
  class_of FlatIndexOutOfBounds = IndexError.
Proof.
  intros Hok Hlen Hsh Hl Hg Hp Hst Hx Hnv Hlow Hfit. split; [|done].
  destruct Hok as (Hneg & Hv32 & Hnn).
  apply list_elem_of_lookup in Hx as [k Hk].
  destruct (lookup_lt_is_Some_2 (data pred) k) as [y Hy].
  { rewrite <- Hl. by eapply lookup_lt_Some. }
  pose proof (Forall_lookup_1 _ _ _ _ Hp Hy) as Hyr. simpl in Hyr.
  assert (0 < Z.of_nat (class_count s)) as Hn by lia.
  destruct (amax gt) as [mg|] eqn:Hmg.
  2:{ apply amax_None in Hmg. rewrite Hmg in Hk. done. }
  destruct (amax pred) as [mp|] eqn:Hmp.
  2:{ apply amax_None in Hmp. rewrite Hmp in Hy. done. }
  rewrite (incremental_update_accepts gt pred allow uf s mg mp); try done.
  - apply (accumulate_index_error _ _ _ _ (flat_index (class_count s) x y)).
    + rewrite pairs_of_data. eapply pairs_of_elem; [exact Hk | exact Hy |].
      assert (is_int32 x) as Hx32.
      { unfold is_int32, in_range in *.
        change (2 ^ (32 - 1)) with (2 ^ 31) in *. nia. }
      assert (is_int32 y) as Hy32.
      { unfold is_int32, in_range in *.
        change (2 ^ (32 - 1)) with (2 ^ 31) in *. nia. }
      unfold counted_element. rewrite !to_int32_id by done.
      destruct (Z.eqb_spec x (void_label s)); [done|]. simpl.
      destruct allow; [|done].
      destruct (Z.eqb_spec y (void_label s)); [lia | done].
    + unfold flat_index.
      assert (is_int32 x ∧ is_int32 y ∧
              is_int32 (x * Z.of_nat (class_count s)) ∧
              is_int32 (x * Z.of_nat (class_count s) + y)) as (H1 & H2 & H3 & H4).
      { unfold is_int32, in_range in *.
        change (2 ^ (32 - 1)) with (2 ^ 31) in *. nia. }
      rewrite (to_int32_id x), (to_int32_id y) by done.
      rewrite (to_int32_id (x * _)) by done.
      rewrite to_int32_id by done.
      unfold adjust_index. rewrite Hlen.
      destruct (Z.ltb_spec (x * Z.of_nat (class_count s) + y) 0); [|nia].
      destruct (Z.leb_spec 0 (x * Z.of_nat (class_count s) + y
                              + Z.of_nat (class_count s * class_count s)));
        [nia | done].
  - destruct allow; [done|]. simpl.
    destruct (contains (void_label s) pred) eqn:Hc; [|done].
    apply contains_spec in Hc.
    pose proof (proj1 (Forall_forall _ _) Hp _ Hc). simpl in *. lia.
  - apply amax_elem in Hmg.
    exact (proj1 (Forall_forall _ _) Hg _ Hmg).
  - apply amax_elem in Hmp.
    pose proof (proj1 (Forall_forall _ _) Hp _ Hmp). simpl in *. lia.
Qed.

Lemma label_below_the_matrix_raises_IndexError_witness :
  incremental_update (array1d [0; -3]) (array1d [1; 1]) false true finished2
  = (Raise FlatIndexOutOfBounds, finished2) ∧
  class_of FlatIndexOutOfBounds = IndexError.
Proof.
  destruct finished2_ok as [Hm Hl]. destruct finished2_fields as (Hcc & Hv & _).
  apply (label_below_the_matrix_raises_IndexError finished2 (array1d [0; -3])
           (array1d [1; 1]) false true (-3));
    [exact Hl | apply Hm | reflexivity | reflexivity | | | reflexivity
     | | | | ]; rewrite ?Hcc, ?Hv.
  - repeat (constructor; [simpl; lia|]). constructor.
  - repeat (constructor; [simpl; lia|]). constructor.
  - simpl. apply elem_of_cons. right. apply elem_of_cons. by left.
  - lia.
  - simpl. lia.
  - simpl. lia.
Defined.

(** ** The matrix stays a matrix of counts *)

(** X11.  A batch of valid labels that cannot overflow the total leaves
    a matrix of counts a matrix of counts: the size stays, no cell is
    negative, and the total fits an int64. *)
Theorem valid_update_keeps_counts s gt pred allow uf :
  labels_ok s → counts_ok s →
  valid_batch s allow gt pred →
  zsum (confusion s) + Z.of_nat (length (data gt)) < 2 ^ 63 →
  counts_ok (after (incremental_update gt pred allow uf s)).
Proof.
  intros Hok Hc Hv Hfit.
  pose proof (counts_matrix_ok s Hc) as Hm.
  destruct Hc as (Hlen & Ha & Htot).
  pose proof (valid_batch_length _ _ _ _ Hv) as Hl.
  destruct Hv as (Hsh & _ & _ & Hg & Hp).
  destruct (incremental_update_valid_after s gt pred allow uf Hm Hok Hsh Hl
              Hg Hp) as (Hcc & _ & [Hlen' _] & _ & Hconf).
  simpl in *. unfold counts_ok. rewrite Hcc, Hconf.
  destruct (finished_computation s && negb uf); [done|].
  pose proof (pairs_of_length (void_label s) (class_count s) allow
                (data gt) (data pred)) as Hpl.
  rewrite <- pairs_of_data in Hpl.
  destruct (counted_counts (confusion s)
              (pairs_of (void_label s) (class_count s) allow gt pred) Ha)
    as (_ & Hnn & Hsum); [lia|].
  rewrite counted_length. repeat split; [done | done | lia].
Qed.

Lemma valid_update_keeps_counts_witness :
  counts_ok (after (incremental_update (array1d [0; -1; 1; 1])
                      (array1d [0; 1; 1; 1]) false true finished2)).
Proof.
  destruct finished2_fields as (Hcc & Hv & Ha & _).
  assert (Forall (λ c, 0 ≤ c < 1000) [1; 1; 0; 2]) as Hall
    by (repeat (constructor; [lia|]); constructor).
  destruct (small_object_ok finished2 _ Hcc Hv Ha eq_refl Hall)
    as (_ & Hl & Hc).
  apply valid_update_keeps_counts; [exact Hl | exact Hc | |].
  - unfold valid_batch, valid_label, ndarray_ok. rewrite Hcc, Hv.
    repeat split; try reflexivity.
    + repeat (constructor; [simpl; lia|]). constructor.
    + repeat (constructor; [simpl; lia|]). constructor.
  - rewrite Ha. simpl. lia.
Defined.

(** ** The column-normalized matrix *)

Lemma np_sum_cols s :
  counts_ok s →
  map (λ j, np_sum (col (class_count s) (confusion s) j))
    (seq 0 (class_count s)) = pred_sums s.
Proof.
  intros (Hlen & Ha & Htot). pose proof (zsum_nonneg _ Ha) as Hnn.
  unfold pred_sums. apply map_ext_in. intros i Hi. apply in_seq in Hi.
  apply np_sum_id.
  pose proof (sums_bounds _ _ i Hlen Ha ltac:(lia)). simpl in *. lia.
Qed.

Lemma finish_col_field s :
  counts_ok s →
  confusion_normalized_col (after (finish s))
  = Some (map (λ r, zip_with true_divide r (pred_sums s))
            (rows (class_count s) (confusion s))).
Proof.
  intros Hok. unfold finish, after, mbind, M_bind, get, put. simpl.
  by rewrite np_sum_cols.
Qed.

Lemma omap_map_total {A B C} (f : A → B) (g : B → option C) (h : A → C)
    (l : list A) :
  (∀ x, x ∈ l → g (f x) = Some (h x)) → omap g (map f l) = map h l.
Proof.
  induction l as [|x l IH]; intros Hall; [done|].
  change (omap g (map f (x :: l)))
    with (match g (f x) with
          | Some y => y :: omap g (map f l)
          | None => omap g (map f l)
          end).
  rewrite Hall by (by left). rewrite IH; [done|].
  intros y Hy. apply Hall. by right.
Qed.

Lemma length_row n (a : list Z) i :
  length a = (n * n)%nat → (i < n)%nat → length (row n a i) = n.
Proof.
  intros Hlen Hi. unfold row. rewrite length_take, length_drop, Hlen. nia.
Qed.

Lemma length_pred_sums s : length (pred_sums s) = class_count s.
Proof. unfold pred_sums. by rewrite length_map, length_seq. Qed.

Lemma pred_sums_lookup s j p :
  pred_sums s !! j = Some p →
  (j < class_count s)%nat ∧ p = zsum (col (class_count s) (confusion s) j).
Proof.
  intros Hp.
  assert (j < class_count s)%nat as Hj.
  { apply lookup_lt_Some in Hp. by rewrite length_pred_sums in Hp. }
  split; [done|]. unfold pred_sums in Hp.
  change (map ?f ?l) with (f <$> l) in Hp.
  rewrite list_lookup_fmap, lookup_seq_lt in Hp by done.
  by simplify_eq/=.
Qed.

(** X12.  After [finish] on a matrix of counts, for a class [j] that
    was predicted (the sum [p] of column [j] is not zero), column [j]
    of the column-normalized matrix holds the cells of column [j]
    divided by [p], and its entries sum to 1 (in exact arithmetic). *)
Theorem normalized_column_sums_to_one s j p :
  counts_ok s → pred_sums s !! j = Some p → p ≠ 0 →
  ∃ M c,
    confusion_normalized_col (after (finish s)) = Some M ∧
    sum_per_class (after (finish s)) = Some (pred_sums s) ∧
    length M = class_count s ∧
    fcol M j = c ∧
    c = map (λ x, true_divide x p) (col (class_count s) (confusion s) j) ∧
    fsum c =f Fin 1.
Proof.
  intros Hok Hp Hne.
  destruct (finish_fields s Hok) as (_ & _ & _ & _ & Hsum & _).
  pose proof (finish_col_field s Hok) as Hcol.
  destruct (pred_sums_lookup s j p Hp) as [Hj Hpj].
  destruct Hok as (Hlen & Ha & Htot).
  eexists _, _. split; [exact Hcol|]. split; [exact Hsum|].
  split; [unfold rows; by rewrite !length_map, length_seq|].
  split; [reflexivity|]. split.
  - unfold fcol, rows, col. rewrite map_map, map_map.
    apply omap_map_total. intros i Hi. apply elem_of_seq in Hi.
    rewrite lookup_zip_with, Hp.
    destruct (lookup_lt_is_Some_2 (row (class_count s) (confusion s) i) j)
      as [x Hx]; [rewrite length_row; [done | done | lia]|].
    rewrite (cell_row _ _ i j Hj), Hx. done.
  - unfold fcol, rows.
    rewrite map_map.
    rewrite (omap_map_total _ _
               (λ i, true_divide (cell (class_count s) (confusion s) i j) p)).
    + destruct (fsum_true_divide (col (class_count s) (confusion s) j) p Hne)
        as (q & Hq & Heq).
      unfold col in Hq. rewrite map_map in Hq. rewrite Hq. simpl.
      rewrite Heq, <- Hpj. field. by apply inject_Z_nonzero.
    + intros i Hi. apply elem_of_seq in Hi.
      rewrite lookup_zip_with, Hp.
      destruct (lookup_lt_is_Some_2 (row (class_count s) (confusion s) i) j)
        as [x Hx]; [rewrite length_row; [done | done | lia]|].
      rewrite (cell_row _ _ i j Hj), Hx. done.
Qed.

Lemma normalized_column_sums_to_one_witness :
  ∃ M c,
    confusion_normalized_col (after (finish finished2)) = Some M ∧
    sum_per_class (after (finish finished2)) = Some (pred_sums finished2) ∧
    length M = class_count finished2 ∧
    fcol M 1 = c ∧
    c = map (λ x, true_divide x 3)
          (col (class_count finished2) (confusion finished2) 1) ∧
    fsum c =f Fin 1.
Proof.
  apply (normalized_column_sums_to_one finished2 1 3).
  - exact finished2_counts_ok.
  - vm_compute. reflexivity.
  - lia.
Defined.

(** ** The scores *)

Lemma feq_fraction x y : x =f y → is_fraction y → is_fraction x.
Proof.
  destruct x as [a| | |], y as [b| | |]; simpl; try done.
  intros ->. done.
Qed.

Lemma feq_NaN x : x =f NaN → x = NaN.
Proof. by destruct x. Qed.

Lemma Qsum_fractions (qs : list Q) :
  Forall (λ q, 0 <= q <= 1)%Q qs →
  (0 <= Qsum qs <= inject_Z (Z.of_nat (length qs)))%Q.
Proof.
  induction 1 as [|q qs [Hq0 Hq1] _ [IH0 IH1]].
  - simpl. split; apply Qle_refl.
  - simpl Qsum. simpl length. rewrite Nat2Z.inj_succ, <- Z.add_1_l.
    rewrite inject_Z_plus. split.
    + rewrite <- (Qplus_0_l 0). by apply Qplus_le_compat.
    + by apply Qplus_le_compat.
Qed.

Lemma inject_Z_pos d : 0 < d → (0 < inject_Z d)%Q.
Proof. intros Hd. unfold Qlt. simpl. lia. Qed.

Lemma inject_Z_nonneg d : 0 ≤ d → (0 <= inject_Z d)%Q.
Proof. intros Hd. unfold Qle. simpl. lia. Qed.

Lemma quotient_fraction n d :
  0 ≤ n ≤ d → d ≠ 0 → (0 <= inject_Z n / inject_Z d <= 1)%Q.
Proof.
  intros Hnd Hd.
  assert (0 < inject_Z d)%Q as Hpos by (apply inject_Z_pos; lia).
  split.
  - apply Qle_shift_div_l; [done|]. rewrite Qmult_0_l.
    apply inject_Z_nonneg. lia.
  - apply Qle_shift_div_r; [done|]. rewrite Qmult_1_l.
    rewrite <- Zle_Qle. lia.
Qed.

Lemma defined_quotients_cons n d num den :
  defined_quotients (n :: num) (d :: den)
  = (if d =? 0 then [] else [(inject_Z n / inject_Z d)%Q])
    ++ defined_quotients num den.
Proof. unfold defined_quotients. simpl. by destruct (d =? 0). Qed.

Lemma defined_quotients_fractions num : ∀ den,
  Forall (λ nd, 0 ≤ fst nd ≤ snd nd) (zip num den) →
  Forall (λ q, 0 <= q <= 1)%Q (defined_quotients num den).
Proof.
  induction num as [|n num IH]; intros [|d den] Hall; try by constructor.
  apply Forall_cons in Hall as [Hnd Hall]. simpl in Hnd.
  rewrite defined_quotients_cons. apply Forall_app. split; [|by apply IH].
  destruct (Z.eqb_spec d 0); [by constructor|].
  constructor; [|by constructor]. by apply quotient_fraction.
Qed.

Lemma mean_of_defined_fraction num den :
  Forall (λ nd, 0 ≤ fst nd ≤ snd nd) (zip num den) →
  defined_quotients num den ≠ [] →
  is_fraction (mean_of_defined num den).
Proof.
  intros Hall Hne. unfold mean_of_defined.
  pose proof (Qsum_fractions _ (defined_quotients_fractions _ _ Hall))
    as [H0 H1].
  destruct (defined_quotients num den) as [|q qs] eqn:Hqs; [done|].
  simpl is_fraction.
  assert (0 < inject_Z (Z.of_nat (length (q :: qs))))%Q as Hpos
    by (apply inject_Z_pos; simpl length; lia).
  split.
  - apply Qle_shift_div_l; [done|]. by rewrite Qmult_0_l.
  - apply Qle_shift_div_r; [done|]. by rewrite Qmult_1_l.
Qed.

Lemma mean_of_defined_NaN num den :
  Forall (λ d, d = 0) den → mean_of_defined num den = NaN.
Proof.
  intros Hden. unfold mean_of_defined.
  assert (defined_quotients num den = []) as ->; [|done].
  revert num. induction Hden as [|d den -> _ IH]; intros [|n num]; try done.
  rewrite defined_quotients_cons. simpl. apply IH.
Qed.

Lemma defined_quotients_nonempty num : ∀ den i n d,
  num !! i = Some n → den !! i = Some d → d ≠ 0 →
  defined_quotients num den ≠ [].
Proof.
  induction num as [|n' num IH]; intros [|d' den] i n d Hn Hd Hne; try done.
  rewrite defined_quotients_cons. destruct i as [|i]; simpl in *.
  - simplify_eq. destruct (Z.eqb_spec d 0); done.
  - intros Heq. apply app_eq_nil in Heq as [_ Heq]. by eapply IH.
Qed.

Lemma zsum_pos_elem l : 0 < zsum l → ∃ i x, l !! i = Some x ∧ x ≠ 0.
Proof.
  induction l as [|y l IH]; unfold zsum in *; simpl; [lia|]. intros Hpos.
  destruct (decide (y = 0)) as [->|Hy].
  - destruct IH as (i & x & Hi & Hx); [lia|]. by exists (S i), x.
  - by exists 0%nat, y.
Qed.

Lemma diag_gt_sums_zip s :
  counts_ok s →
  Forall (λ nd, 0 ≤ fst nd ≤ snd nd)
    (zip (diag (class_count s) (confusion s)) (gt_sums s)).
Proof.
  intros (Hlen & Ha & Htot). unfold diag, gt_sums.
  rewrite zip_with_map_same. apply Forall_forall. intros nd Hnd.
  apply list_elem_of_In, in_map_iff in Hnd as (i & <- & Hi).
  apply in_seq in Hi. simpl.
  pose proof (sums_bounds _ _ i Hlen Ha ltac:(lia)). simpl in *. lia.
Qed.

Lemma diag_unions_zip s :
  counts_ok s →
  Forall (λ nd, 0 ≤ fst nd ≤ snd nd)
    (zip (diag (class_count s) (confusion s)) (unions s)).
Proof.
  intros (Hlen & Ha & Htot). rewrite unions_eq. unfold diag.
  rewrite zip_with_map_same. apply Forall_forall. intros nd Hnd.
  apply list_elem_of_In, in_map_iff in Hnd as (i & <- & Hi).
  apply in_seq in Hi. simpl.
  pose proof (sums_bounds _ _ i Hlen Ha ltac:(lia)). simpl in *. lia.
Qed.

Lemma zero_implies_zero (l : list (Z * Z)) :
  Forall (λ nd, 0 ≤ fst nd ≤ snd nd) l →
  Forall (λ nd, snd nd = 0 → fst nd = 0) l.
Proof. intros Hl. eapply Forall_impl; [exact Hl|]. intros [n d]. simpl. lia. Qed.

Lemma avg_score_mean s :
  counts_ok s →
  avg_score (after (finish s))
  =f mean_of_defined (diag (class_count s) (confusion s)) (gt_sums s).
Proof.
  intros Hok.
  destruct (finish_fields s Hok) as (_ & _ & _ & _ & _ & _ & -> & _).
  by apply nanmean_true_divide, zero_implies_zero, diag_gt_sums_zip.
Qed.

Lemma avg_iou_score_mean s :
  counts_ok s →
  avg_iou_score (after (finish s))
  =f mean_of_defined (diag (class_count s) (confusion s)) (unions s).
Proof.
  intros Hok.
  destruct (finish_fields s Hok) as (_ & _ & _ & _ & _ & _ & _ & -> & _).
  by apply nanmean_true_divide, zero_implies_zero, diag_unions_zip.
Qed.

(** A class with ground-truth support, in a matrix that holds a count. *)
Lemma supported_class s :
  counts_ok s → 0 < zsum (confusion s) →
  ∃ i d g u,
    diag (class_count s) (confusion s) !! i = Some d ∧
    gt_sums s !! i = Some g ∧ unions s !! i = Some u ∧ g ≠ 0 ∧ u ≠ 0.
Proof.
  intros (Hlen & Ha & Htot) Hpos.
  rewrite <- (zsum_rows_total _ _ Hlen) in Hpos.
  apply zsum_pos_elem in Hpos as (i & g & Hg & Hne).
  assert (i < class_count s)%nat as Hi.
  { apply lookup_lt_Some in Hg. by rewrite length_map, length_seq in Hg. }
  exists i, (cell (class_count s) (confusion s) i i), g,
    (zsum (row (class_count s) (confusion s) i)
     + zsum (col (class_count s) (confusion s) i)
     - cell (class_count s) (confusion s) i i).
  rewrite unions_eq. unfold diag, gt_sums.
  change (map ?f ?l) with (f <$> l) in *.
  rewrite !list_lookup_fmap, !lookup_seq_lt in * by done.
  simplify_eq/=.
  pose proof (sums_bounds _ _ i Hlen Ha Hi). simpl in *.
  repeat split; try done. lia.
Qed.

(** X13.  After [finish] on a matrix of counts that holds at least
    one count, the global score, the average score and the average IoU
    are numbers between 0 and 1 (in exact arithmetic): none of them is
    [nan] or an infinity. *)
Theorem scores_are_fractions s :
  counts_ok s → 0 < zsum (confusion s) →
  is_fraction (global_score (after (finish s))) ∧
  is_fraction (avg_score (after (finish s))) ∧
  is_fraction (avg_iou_score (after (finish s))).
Proof.
  intros Hok Hpos.
  destruct (supported_class s Hok Hpos) as (i & d & g & u & Hd & Hg & Hu & Hg0 & Hu0).
  split; [|split].
  - destruct (finish_fields s Hok) as (_ & _ & _ & _ & _ & -> & _).
    destruct Hok as (Hlen & Ha & Htot).
    rewrite true_divide_defined by lia.
    apply quotient_fraction; [|lia]. by apply diag_sum_bounds.
  - eapply feq_fraction; [by apply avg_score_mean|].
    apply mean_of_defined_fraction; [by apply diag_gt_sums_zip|].
    by eapply defined_quotients_nonempty.
  - eapply feq_fraction; [by apply avg_iou_score_mean|].
    apply mean_of_defined_fraction; [by apply diag_unions_zip|].
    by eapply defined_quotients_nonempty.
Qed.

Lemma scores_are_fractions_witness :
  is_fraction (global_score (after (finish finished2))) ∧
  is_fraction (avg_score (after (finish finished2))) ∧
  is_fraction (avg_iou_score (after (finish finished2))).
Proof.
  apply scores_are_fractions.
  - exact finished2_counts_ok.
  - vm_compute. reflexivity.
Defined.

Lemma all_zero_of_total (l : list Z) :
  Forall (λ c, 0 ≤ c) l → zsum l = 0 → Forall (λ c, c = 0) l.
Proof.
  intros Hl Hz. apply Forall_lookup. intros k c Hk.
  pose proof (zsum_lookup_le _ _ _ Hl Hk). lia.
Qed.

(** X14.  After [finish] on a matrix of counts that holds no count (a
    fresh object, or one that was [reset]), the three scores are [nan],
    not the zeros that [reset] had put there. *)
Theorem scores_of_an_empty_matrix_are_nan s :
  counts_ok s → zsum (confusion s) = 0 →
  global_score (after (finish s)) = NaN ∧
  avg_score (after (finish s)) = NaN ∧
  avg_iou_score (after (finish s)) = NaN.
Proof.
  intros Hok Hz.
  pose proof (avg_score_mean s Hok) as Havg.
  pose proof (avg_iou_score_mean s Hok) as Hiou.
  destruct (finish_fields s Hok) as (_ & _ & _ & _ & _ & -> & _).
  destruct Hok as (Hlen & Ha & Htot).
  split; [|split].
  - pose proof (diag_sum_bounds _ _ Hlen Ha).
    assert (zsum (diag (class_count s) (confusion s)) = 0) as -> by lia.
    by rewrite Hz.
  - apply feq_NaN. rewrite mean_of_defined_NaN in Havg; [done|].
    unfold gt_sums. apply Forall_forall. intros g Hg.
    apply list_elem_of_In, in_map_iff in Hg as (i & <- & Hi).
    apply in_seq in Hi.
    pose proof (sums_bounds _ _ i Hlen Ha ltac:(lia)). simpl in *. lia.
  - apply feq_NaN. rewrite mean_of_defined_NaN in Hiou; [done|].
    rewrite unions_eq. apply Forall_forall. intros g Hg.
    apply list_elem_of_In, in_map_iff in Hg as (i & <- & Hi).
    apply in_seq in Hi.
    pose proof (sums_bounds _ _ i Hlen Ha ltac:(lia)). simpl in *. lia.
Qed.

Lemma scores_of_an_empty_matrix_are_nan_witness :
  global_score (after (finish fresh2)) = NaN ∧
  avg_score (after (finish fresh2)) = NaN ∧
  avg_iou_score (after (finish fresh2)) = NaN.
Proof.
  destruct fresh2_fields as (Hcc & Hv & Ha & _).
  assert (Forall (λ c, 0 ≤ c < 1000) [0; 0; 0; 0]) as Hall
    by (repeat (constructor; [lia|]); constructor).
  destruct (small_object_ok fresh2 _ Hcc Hv Ha eq_refl Hall) as (_ & _ & Hc).
  apply scores_of_an_empty_matrix_are_nan; [exact Hc|].
  rewrite Ha. reflexivity.
Defined.

Lemma fle_feq x x' y y' : x =f x' → y =f y' → fle x' y' → fle x y.
Proof.
  destruct x as [a| | |], x' as [a'| | |], y as [b| | |], y' as [b'| | |];
    simpl; try done.
  intros -> ->. done.
Qed.

Lemma quotient_antitone n d1 d2 :
  0 ≤ n → 0 < d1 ≤ d2 →
  (inject_Z n / inject_Z d2 <= inject_Z n / inject_Z d1)%Q.
Proof.
  intros Hn Hd.
  assert (0 < inject_Z d1)%Q as H1 by (apply inject_Z_pos; lia).
  assert (0 < inject_Z d2)%Q as H2 by (apply inject_Z_pos; lia).
  apply Qle_shift_div_r; [done|].
  assert (inject_Z n / inject_Z d1 * inject_Z d2
          == inject_Z n * inject_Z d2 / inject_Z d1)%Q as ->.
  { field. intros Heq. rewrite Heq in H1. by apply Qlt_irrefl in H1. }
  apply Qle_shift_div_l; [done|].
  rewrite <- !inject_Z_mult, <- Zle_Qle. nia.
Qed.

Lemma defined_quotients_compare num : ∀ den1 den2,
  length den1 = length num → length den2 = length num →
  (∀ i n d1 d2, num !! i = Some n → den1 !! i = Some d1 →
                den2 !! i = Some d2 → 0 ≤ n ≤ d1 ∧ d1 ≤ d2) →
  (Qsum (defined_quotients num den2) <= Qsum (defined_quotients num den1))%Q ∧
  (length (defined_quotients num den1)
   ≤ length (defined_quotients num den2))%nat.
Proof.
  induction num as [|n num IH]; intros [|d1 den1] [|d2 den2] Hl1 Hl2 Hall;
    try done.
  destruct (Hall 0%nat n d1 d2 eq_refl eq_refl eq_refl) as [Hn Hd].
  destruct (IH den1 den2) as [IHs IHl].
  { simpl in Hl1. lia. }
  { simpl in Hl2. lia. }
  { intros i. apply (Hall (S i)). }
  rewrite !defined_quotients_cons.
  destruct (Z.eqb_spec d1 0) as [->|Hd1].
  - assert (n = 0) as -> by lia. simpl.
    destruct (Z.eqb_spec d2 0) as [->|Hd2]; simpl; [done|].
    split; [|lia].
    assert (inject_Z 0 / inject_Z d2 == 0)%Q as ->.
    { unfold Qdiv. apply Qmult_0_l. }
    by rewrite Qplus_0_l.
  - destruct (Z.eqb_spec d2 0) as [->|Hd2]; [lia|]. simpl. split; [|lia].
    apply Qplus_le_compat; [|done]. apply quotient_antitone; lia.
Qed.

Lemma mean_compare (S1 S2 : Q) (L1 L2 : nat) :
  (0 <= S2 <= S1)%Q → (0 < L1 ≤ L2)%nat →
  (S2 / inject_Z (Z.of_nat L2) <= S1 / inject_Z (Z.of_nat L1))%Q.
Proof.
  intros [H0 H21] HL.
  assert (0 < inject_Z (Z.of_nat L1))%Q as H1 by (apply inject_Z_pos; lia).
  assert (0 < inject_Z (Z.of_nat L2))%Q as H2 by (apply inject_Z_pos; lia).
  apply Qle_shift_div_r; [done|].
  assert (S1 / inject_Z (Z.of_nat L1) * inject_Z (Z.of_nat L2)
          == S1 * inject_Z (Z.of_nat L2) / inject_Z (Z.of_nat L1))%Q as ->.
  { field. intros Heq. rewrite Heq in H1. by apply Qlt_irrefl in H1. }
  apply Qle_shift_div_l; [done|].
  apply Qmult_le_compat_nonneg.
  - by split.
  - split; [by apply Qlt_le_weak|]. rewrite <- Zle_Qle. lia.
Qed.

Lemma Qsum_nonneg (qs : list Q) :
  Forall (λ q, 0 <= q <= 1)%Q qs → (0 <= Qsum qs)%Q.
Proof. intros Hq. by destruct (Qsum_fractions qs Hq). Qed.

(** X15.  After [finish] on a matrix of counts that holds at least
    one count, the average IoU is at most the average score (in exact
    arithmetic). *)
Theorem avg_iou_score_le_avg_score s :
  counts_ok s → 0 < zsum (confusion s) →
  fle (avg_iou_score (after (finish s))) (avg_score (after (finish s))).
Proof.
  intros Hok Hpos.
  eapply fle_feq; [by apply avg_iou_score_mean | by apply avg_score_mean |].
  destruct (supported_class s Hok Hpos)
    as (i & d & g & u & Hd & Hg & Hu & Hg0 & Hu0).
  pose proof (defined_quotients_nonempty _ _ _ _ _ Hd Hg Hg0) as Hne.
  pose proof (Qsum_nonneg _ (defined_quotients_fractions _ _
                               (diag_unions_zip s Hok))) as Hnn.
  destruct (defined_quotients_compare (diag (class_count s) (confusion s))
              (gt_sums s) (unions s)) as [Hsum Hlen'].
  { unfold gt_sums, diag. by rewrite !length_map. }
  { rewrite unions_eq. unfold diag. by rewrite !length_map. }
  { intros k n d1 d2 Hn H1 H2.
    assert (k < class_count s)%nat as Hk.
    { apply lookup_lt_Some in Hn. unfold diag in Hn.
      by rewrite length_map, length_seq in Hn. }
    rewrite unions_eq in H2. unfold diag, gt_sums in *.
    change (map ?f ?l) with (f <$> l) in *.
    rewrite !list_lookup_fmap, !lookup_seq_lt in * by done.
    simplify_eq/=. destruct Hok as (Hlen & Ha & Htot).
    pose proof (sums_bounds _ _ k Hlen Ha Hk). simpl in *. lia. }
  unfold mean_of_defined.
  destruct (defined_quotients _ (gt_sums s)) as [|q1 qs1] eqn:H1; [done|].
  destruct (defined_quotients _ (unions s)) as [|q2 qs2] eqn:H2;
    [simpl in Hlen'; lia|].
  simpl fle. apply mean_compare; [by split | simpl in *; lia].
Qed.

Lemma avg_iou_score_le_avg_score_witness :
  fle (avg_iou_score (after (finish finished2)))
    (avg_score (after (finish finished2))).
Proof.
  apply avg_iou_score_le_avg_score.
  - exact finished2_counts_ok.
  - vm_compute. reflexivity.
Defined.

Lemma zsum_zero_iff (l : list Z) :
  Forall (λ c, 0 ≤ c) l → zsum l = 0 ↔ Forall (λ c, c = 0) l.
Proof.
  intros Hl. split; [by apply all_zero_of_total|].
  clear Hl. induction 1 as [|x l -> _ IH]; [done|].
  unfold zsum in *. simpl. lia.
Qed.

(** X16.  After [finish] on a matrix of counts, the average score is
    the mean of [diag[i] / gt_sum[i]] over the classes for which this
    denominator is not zero (in exact arithmetic); the denominator of
    class [i] is the sum of row [i], and it is zero exactly when no
    cell of that row holds a count. *)
Theorem avg_score_is_mean_over_gt_support s :
  counts_ok s →
  avg_score (after (finish s))
  =f mean_of_defined (diag (class_count s) (confusion s)) (gt_sums s) ∧
  ∀ i g,
    gt_sums s !! i = Some g →
    g = zsum (row (class_count s) (confusion s) i) ∧
    (g = 0 ↔ Forall (λ c, c = 0) (row (class_count s) (confusion s) i)).
Proof.
  intros Hok. split; [by apply avg_score_mean|].
  intros i g Hg.
  assert (i < class_count s)%nat as Hi.
  { apply lookup_lt_Some in Hg. unfold gt_sums in Hg.
    by rewrite length_map, length_seq in Hg. }
  unfold gt_sums in Hg. change (map ?f ?l) with (f <$> l) in Hg.
  rewrite list_lookup_fmap, lookup_seq_lt in Hg by done.
  simplify_eq/=. split; [done|].
  apply zsum_zero_iff, row_nonneg, Hok.
Qed.

Lemma avg_score_is_mean_over_gt_support_witness :
  avg_score (after (finish predicted_only))
  =f mean_of_defined (diag (class_count predicted_only)
                        (confusion predicted_only))
       (gt_sums predicted_only) ∧
  ∀ i g,
    gt_sums predicted_only !! i = Some g →
    g = zsum (row (class_count predicted_only) (confusion predicted_only) i) ∧
    (g = 0 ↔ Forall (λ c, c = 0)
               (row (class_count predicted_only)
                  (confusion predicted_only) i)).
Proof.
  apply avg_score_is_mean_over_gt_support.
  assert (class_count predicted_only = 2%nat ∧
          void_label predicted_only = -1 ∧
          confusion predicted_only = [1; 1; 0; 0]) as (Hcc & Hv & Ha)
    by (vm_compute; done).
  assert (Forall (λ c, 0 ≤ c < 1000) [1; 1; 0; 0]) as Hall
    by (repeat (constructor; [lia|]); constructor).
  by destruct (small_object_ok predicted_only _ Hcc Hv Ha eq_refl Hall)
    as (_ & _ & ?).
Defined.

(** ** The sums per class *)

Lemma zsum_swap {A B} (f : A → B → Z) (l1 : list A) (l2 : list B) :
  zsum (map (λ j, zsum (map (λ i, f i j) l1)) l2)
  = zsum (map (λ i, zsum (map (λ j, f i j) l2)) l1).
Proof.
  induction l1 as [|x l1 IH].
  - simpl. apply zsum_map_zero.
  - rewrite (zsum_map_ext _ (λ j, f x j + zsum (map (λ i, f i j) l1)))
      by done.
    rewrite zsum_map_add, IH. done.
Qed.

Lemma list_as_lookups (l : list Z) :
  l = map (λ j, default 0 (l !! j)) (seq 0 (length l)).
Proof.
  apply list_eq. intros j. change (map ?f ?k) with (f <$> k).
  rewrite list_lookup_fmap.
  destruct (decide (j < length l)%nat) as [Hj|Hj].
  - rewrite lookup_seq_lt by done. simpl.
    by destruct (lookup_lt_is_Some_2 l j Hj) as [x ->].
  - rewrite lookup_seq_ge by lia. simpl. apply lookup_ge_None. lia.
Qed.

Lemma zsum_row_cells n (a : list Z) i :
  length a = (n * n)%nat → (i < n)%nat →
  zsum (row n a i) = zsum (map (λ j, cell n a i j) (seq 0 n)).
Proof.
  intros Hlen Hi.
  rewrite (list_as_lookups (row n a i)) at 1.
  rewrite length_row by done.
  apply zsum_map_ext. intros j Hj. apply elem_of_seq in Hj.
  symmetry. apply cell_row. lia.
Qed.

Lemma zsum_cols_total n (a : list Z) :
  length a = (n * n)%nat →
  zsum (map (λ j, zsum (col n a j)) (seq 0 n)) = zsum a.
Proof.
  intros Hlen. unfold col.
  rewrite (zsum_swap (λ i j, cell n a i j)).
  rewrite <- (zsum_rows_total n a Hlen).
  apply zsum_map_ext. intros i Hi. apply elem_of_seq in Hi.
  symmetry. apply zsum_row_cells; [done | lia].
Qed.

(** X17.  After [finish] on a matrix of counts, [gt_sum_per_class]
    holds the sums of the rows and [sum_per_class] the sums of the
    columns, and each of the two adds up to the total of the matrix. *)
Theorem per_class_sums_add_up_to_the_total s :
  counts_ok s →
  ∃ gs ps,
    gt_sum_per_class (after (finish s)) = Some gs ∧
    sum_per_class (after (finish s)) = Some ps ∧
    gs = map (λ i, zsum (row (class_count s) (confusion s) i))
           (seq 0 (class_count s)) ∧
    ps = map (λ j, zsum (col (class_count s) (confusion s) j))
           (seq 0 (class_count s)) ∧
    zsum gs = zsum (confusion s) ∧ zsum ps = zsum (confusion s).
Proof.
  intros Hok.
  destruct (finish_fields s Hok) as (_ & _ & _ & Hg & Hp & _).
  destruct Hok as (Hlen & _).
  exists (gt_sums s), (pred_sums s).
  split; [exact Hg|]. split; [exact Hp|].
  split; [done|]. split; [done|]. split.
  - by apply zsum_rows_total.
  - by apply zsum_cols_total.
Qed.

Lemma per_class_sums_add_up_to_the_total_witness :
  ∃ gs ps,
    gt_sum_per_class (after (finish finished2)) = Some gs ∧
    sum_per_class (after (finish finished2)) = Some ps ∧
    gs = map (λ i, zsum (row (class_count finished2) (confusion finished2) i))
           (seq 0 (class_count finished2)) ∧
    ps = map (λ j, zsum (col (class_count finished2) (confusion finished2) j))
           (seq 0 (class_count finished2)) ∧
    zsum gs = zsum (confusion finished2) ∧
    zsum ps = zsum (confusion finished2).
Proof.
  apply per_class_sums_add_up_to_the_total. exact finished2_counts_ok.
Defined.
